(** * The blocking write handle of the filesystem client ([package fs])

    [Put] hands its caller an ordinary [io.WriteCloser] and starts a
    goroutine that creates the object file and copies the declared number
    of bytes into it from an [io.Pipe].  [Close] on the handle waits on a
    [sync.WaitGroup] until the goroutine has called [Release].

    The development models the two threads of control (the caller and the
    upload goroutine) as an interleaving of atomic steps over an explicit
    shared store: the file system, the pipe, and the fields of the
    [BlockingWriteCloser].

    - A step is one source statement that touches the shared store; the
      statements of [Release] (lines 85 and 86-88) and of [Close] (lines
      75, 76-78, 79 and 80) are separate steps.  Statements that only
      touch the locals of a thread are merged into the next such step.
    - The Go library is modelled after its documentation: [os.Create]
      creates or truncates; [io.Pipe] has no buffer, a [Write] returns once
      [Read]s have consumed all of its bytes or the read end is closed;
      [io.CopyN] reads through a limited reader until [n] bytes are copied
      and reports [io.EOF] when the source ends early; [WaitGroup.Done]
      panics when the counter becomes negative.
    - The caller makes the [Write] calls of a script, whatever they
      return, and then calls [Close] once. *)

From Stdlib Require Import ZArith List Bool Lia String.
From Stdlib.Strings Require Import Byte.
From stdpp Require Import base option list gmap strings.

Open Scope Z_scope.

(** ** Errors *)

(** The [errno] values with which [open(2)] can refuse to create a file. *)
Inductive errno := ENOENT | EACCES | EISDIR | ENOSPC | EEXIST.

(** Go [error] values that occur in [package fs].  A Go [error] interface
    value is an [option error]: [None] is [nil]. *)
Inductive error :=
| InvalidArgument                          (* client.InvalidArgument{} *)
| ObjectExists (bucket object : string)    (* client.ObjectExists{...} *)
| EOF                                      (* io.EOF *)
| ErrClosedPipe                            (* io.ErrClosedPipe *)
| PathError (path : string) (e : errno)    (* *os.PathError of os.Create *)
| IodineError (cause : error).             (* iodine.New(cause, nil) *)

#[global] Instance errno_eq_dec : EqDecision errno.
Proof. solve_decision. Defined.

#[global] Instance error_eq_dec : EqDecision error.
Proof. solve_decision. Defined.

(** [iodine.New(err, nil)]: wraps a non-nil error with a stack trace and
    maps [nil] to [nil].  Wrapping an error again adds a stack entry, which
    is the nesting of [IodineError] here. *)
Definition iodine_New (err : option error) : option error :=
  match err with
  | Some e => Some (IodineError e)
  | None => None
  end.

(** [os.IsExist(err)]. *)
Definition os_IsExist (err : option error) : bool :=
  match err with
  | Some (PathError _ EEXIST) => true
  | _ => false
  end.

(** ** [sync.WaitGroup] *)

(** The result of an operation that may panic. *)
Inductive outcome (A : Type) :=
| Ok (a : A)
| Panic.
Arguments Ok {A} a.
Arguments Panic {A}.

(** A wait group is its counter. *)
Definition WaitGroup := Z.

(** [wg.Add(delta)] panics when the counter becomes negative. *)
Definition wg_Add (delta : Z) (wg : WaitGroup) : outcome WaitGroup :=
  if wg + delta <? 0 then Panic else Ok (wg + delta).

(** [wg.Done()] is [wg.Add(-1)]. *)
Definition wg_Done (wg : WaitGroup) : outcome WaitGroup := wg_Add (-1) wg.

(** [wg.Wait()] returns only once the counter is zero. *)
Definition wg_Wait_ready (wg : WaitGroup) : bool := wg =? 0.

(** ** [BlockingWriteCloser] *)

Record BlockingWriteCloser (W : Type) := mkBWC {
  bw_w : W;                  (* w       io.WriteCloser *)
  bw_release : WaitGroup;    (* release *sync.WaitGroup *)
  bw_err : option error      (* err     error *)
}.
Arguments mkBWC {W} _ _ _.
Arguments bw_w {W} _.
Arguments bw_release {W} _.
Arguments bw_err {W} _.

(** [NewBlockingWriteCloser(w)]: the counter of a fresh wait group is 0,
    and [wg.Add(1)] makes it 1 (no panic: the sum is not negative). *)
Definition NewBlockingWriteCloser {W} (w : W) : BlockingWriteCloser W :=
  mkBWC w (0 + 1) None.

(** [Release], line 85: [b.release.Done()]. *)
Definition Release_Done {W} (b : BlockingWriteCloser W)
  : outcome (BlockingWriteCloser W) :=
  match wg_Done (bw_release b) with
  | Ok wg => Ok (mkBWC (bw_w b) wg (bw_err b))
  | Panic => Panic
  end.

(** [Release], lines 86-88: [if err != nil { b.err = err }]. *)
Definition Release_store {W} (err : option error) (b : BlockingWriteCloser W)
  : BlockingWriteCloser W :=
  match err with
  | Some e => mkBWC (bw_w b) (bw_release b) (Some e)
  | None => b
  end.

(** [Release(err)] run to completion by one thread. *)
Definition Release {W} (err : option error) (b : BlockingWriteCloser W)
  : outcome (BlockingWriteCloser W) :=
  match Release_Done b with
  | Ok b' => Ok (Release_store err b')
  | Panic => Panic
  end.

(** [Close], lines 76-78: [if err != nil { b.err = err }] on the error that
    [b.w.Close()] returned. *)
Definition Close_capture {W} (err : option error) (b : BlockingWriteCloser W)
  : BlockingWriteCloser W :=
  match err with
  | Some e => mkBWC (bw_w b) (bw_release b) (Some e)
  | None => b
  end.

(** [Close], line 79: [b.release.Wait()] can return. *)
Definition Close_Wait_ready {W} (b : BlockingWriteCloser W) : bool :=
  wg_Wait_ready (bw_release b).

(** [Close()] run by a thread that no other thread interrupts, on a writer
    whose [Close] method is [w_Close]: [None] when it stays blocked in
    [Wait]. *)
Definition Close {W} (w_Close : W -> W * option error)
    (b : BlockingWriteCloser W) : option (BlockingWriteCloser W * option error) :=
  let '(w', err) := w_Close (bw_w b) in
  let b' := Close_capture err (mkBWC w' (bw_release b) (bw_err b)) in
  if Close_Wait_ready b' then Some (b', bw_err b') else None.

(** ** Interleavings of two threads *)

Inductive tid := Caller | Worker.

Section Interleaving.
Context {St : Type}.

(** [step t s] is the state after thread [t] takes its next atomic step
    from [s], or [None] when [t] is blocked or has finished. *)
Variable step : tid -> St -> option St.

(** Scheduling a thread that cannot move leaves the state as it is. *)
Fixpoint run (sched : list tid) (s : St) : St :=
  match sched with
  | [] => s
  | t :: sched' => run sched' (default s (step t s))
  end.

Definition terminal (s : St) : Prop := forall t, step t s = None.

(** [inevitably P s]: every execution from [s] is finite, and the state in
    which it stops (no thread can move) satisfies [P]. *)
Inductive inevitably (P : St -> Prop) : St -> Prop :=
| inev_stop s : terminal s -> P s -> inevitably P s
| inev_step s :
    (exists t s', step t s = Some s') ->
    (forall t s', step t s = Some s' -> inevitably P s') ->
    inevitably P s.

End Interleaving.

(** ** [Close] against [Release] on an arbitrary handle

    One thread calls [b.Close()] and another calls [b.Release(rel_err)] on
    a handle made by [NewBlockingWriteCloser(w0)], for an arbitrary
    underlying writer: [w_Close] is its [Close] method.  Each numbered pc
    is the source line the thread executes next. *)

Inductive closer_pc :=
| K75                        (* err := b.w.Close() *)
| K76 (err : option error)   (* if err != nil { b.err = err } *)
| K79                        (* b.release.Wait() *)
| K80                        (* return b.err *)
| KRet (r : option error).   (* Close has returned r *)

Inductive releaser_pc :=
| R85                        (* b.release.Done() *)
| R86                        (* if err != nil { b.err = err } *)
| RRet                       (* Release has returned *)
| RPanic.                    (* Done panicked *)

(** The two [aux_] fields are auxiliary (history) variables: they record
    whether the store of line 87 had been executed when line 76 and when
    line 80 were.  No step reads them. *)
Record cr_state (W : Type) := mkCR {
  cr_b : BlockingWriteCloser W;
  cr_closer : closer_pc;
  cr_releaser : releaser_pc;
  aux_stored_at_capture : bool;
  aux_stored_at_read : bool
}.
Arguments mkCR {W} _ _ _ _ _.
Arguments cr_b {W} _.
Arguments cr_closer {W} _.
Arguments cr_releaser {W} _.
Arguments aux_stored_at_capture {W} _.
Arguments aux_stored_at_read {W} _.

Definition releaser_returned (pc : releaser_pc) : bool :=
  match pc with RRet => true | _ => false end.

Section CloseRelease.
Context {W : Type}.
Variable w_Close : W -> W * option error.
Variable rel_err : option error.

Definition cr_step_closer (s : cr_state W) : option (cr_state W) :=
  let b := cr_b s in
  match cr_closer s with
  | K75 =>
      let '(w', err) := w_Close (bw_w b) in
      Some (mkCR (mkBWC w' (bw_release b) (bw_err b)) (K76 err) (cr_releaser s)
                 (aux_stored_at_capture s) (aux_stored_at_read s))
  | K76 err =>
      Some (mkCR (Close_capture err b) K79 (cr_releaser s)
                 (releaser_returned (cr_releaser s)) (aux_stored_at_read s))
  | K79 =>
      if Close_Wait_ready b
      then Some (mkCR b K80 (cr_releaser s)
                      (aux_stored_at_capture s) (aux_stored_at_read s))
      else None
  | K80 =>
      Some (mkCR b (KRet (bw_err b)) (cr_releaser s)
                 (aux_stored_at_capture s) (releaser_returned (cr_releaser s)))
  | KRet _ => None
  end.

Definition cr_step_releaser (s : cr_state W) : option (cr_state W) :=
  let b := cr_b s in
  match cr_releaser s with
  | R85 =>
      match Release_Done b with
      | Ok b' => Some (mkCR b' (cr_closer s) R86
                            (aux_stored_at_capture s) (aux_stored_at_read s))
      | Panic => Some (mkCR b (cr_closer s) RPanic
                            (aux_stored_at_capture s) (aux_stored_at_read s))
      end
  | R86 =>
      Some (mkCR (Release_store rel_err b) (cr_closer s) RRet
                 (aux_stored_at_capture s) (aux_stored_at_read s))
  | RRet | RPanic => None
  end.

(** A panic aborts the whole program. *)
Definition cr_step (t : tid) (s : cr_state W) : option (cr_state W) :=
  match cr_releaser s with
  | RPanic => None
  | _ =>
      match t with
      | Caller => cr_step_closer s
      | Worker => cr_step_releaser s
      end
  end.

Definition cr_init (w0 : W) : cr_state W :=
  mkCR (NewBlockingWriteCloser w0) K75 R85 false false.

End CloseRelease.

(** [prefer a b]: the error [a] when it is non-nil, and [b] otherwise. *)
Definition prefer (a b : option error) : option error :=
  match a with
  | Some _ => a
  | None => b
  end.

(** ** The file system

    [files] maps a path to the contents of the regular file there.
    [refused] lists the paths at which [open(2)] refuses to create or
    truncate a file, with the reason (the parent directory is missing, the
    path is a directory, no permission, ...). *)
Record FS := mkFS {
  files : gmap string (list byte);
  refused : gmap string errno
}.

(** [os.Create(name)] is [OpenFile(name, O_RDWR|O_CREATE|O_TRUNC, 0666)]:
    it creates the file, or truncates it when it exists. *)
Definition os_Create (name : string) (fs : FS) : FS * option error :=
  match refused fs !! name with
  | Some e => (fs, Some (PathError name e))
  | None => (mkFS (<[name := []]> (files fs)) (refused fs), None)
  end.

(** [fs.Write(p)] on the file that [os.Create(name)] returned: the file
    offset is at the end of what this handle has written.  The write is
    taken to succeed in full (no full disk). *)
Definition file_Write (name : string) (p : list byte) (fs : FS) : FS :=
  mkFS (alter (fun c => c ++ p) name (files fs)) (refused fs).

(** ** [io.Pipe]

    [data] is the pending write ([None]: no write in flight), [rerr] the
    error the reader closed with and [werr] the one the writer closed
    with. *)
Record pipe := mkPipe {
  data : option (list byte);
  rerr : option error;
  werr : option error
}.

Definition pipe_new : pipe := mkPipe None None None.

Inductive read_result :=
| ReadBlocked
| ReadOk (bs : list byte) (p' : pipe)
| ReadErr (e : error).

(** [r.Read(buf)] with [len(buf) = cap]. *)
Definition pipe_read (cap : nat) (p : pipe) : read_result :=
  match rerr p with
  | Some _ => ReadErr ErrClosedPipe
  | None =>
      match data p with
      | Some d =>
          let rest := match drop cap d with [] => None | d' => Some d' end in
          ReadOk (take cap d) (mkPipe rest (rerr p) (werr p))
      | None =>
          match werr p with
          | Some e => ReadErr e
          | None => ReadBlocked
          end
      end
  end.

(** [w.Write(b)], entry: fails on a pipe this end has closed, otherwise
    offers [b] to the reader. *)
Definition pipe_write_begin (b : list byte) (p : pipe) : pipe + error :=
  match werr p with
  | Some _ => inr ErrClosedPipe
  | None => inl (mkPipe (Some b) (rerr p) (werr p))
  end.

Inductive write_result :=
| WriteBlocked
| WriteRet (n : nat) (err : option error) (p' : pipe).

(** [w.Write(b)], waiting: returns once the reader has consumed all of
    [b], or has closed its end. *)
Definition pipe_write_wait (b : list byte) (p : pipe) : write_result :=
  match data p with
  | None => WriteRet (length b) None p
  | Some d =>
      match rerr p with
      | Some e => WriteRet (length b - length d)%nat (Some e)
                           (mkPipe None (rerr p) (werr p))
      | None => WriteBlocked
      end
  end.

(** [r.CloseWithError(err)]; [r.Close()] is [r.CloseWithError(nil)]. *)
Definition pipe_rclose (err : option error) (p : pipe) : pipe :=
  mkPipe (data p) (Some (default ErrClosedPipe err)) (werr p).

(** [w.CloseWithError(err)]; [w.Close()] is [w.CloseWithError(nil)] and
    always returns [nil]. *)
Definition pipe_wclose (err : option error) (p : pipe) : pipe :=
  mkPipe (data p) (rerr p) (Some (default EOF err)).

(** The write end of the one pipe of an upload. *)
Inductive PipeWriter := pipe_w.

(** ** [Put] *)

Record Request := mkRequest {
  bucket : string;
  object : string;
  md5HexString : string;
  size : Z
}.

(** What the goroutine does after [Release] returns. *)
Inductive after_release :=
| ThenReturn     (* lines 23, 30, 37, 43, 50 *)
| ThenClose.     (* line 53 *)

Inductive worker_pc :=
| W19                                       (* if bucket == "" || object == "" *)
| W26                                       (* if size < 0 *)
| W32                                       (* fs, err := os.Create(objectPath) *)
| W45 (written N : Z)                       (* io.CopyN: next Read of the limited reader *)
| W45w (written N : Z) (buf : list byte)    (* io.CopyN: next Write to the file *)
| WFail (err : option error)                (* r.CloseWithError(err) *)
| W85 (err : option error) (k : after_release)   (* Release(err): b.release.Done() *)
| W86 (err : option error) (k : after_release)   (* Release(err): if err != nil *)
| W53                                       (* r.Close() *)
| WExit                                     (* the goroutine has returned *)
| WPanic.                                   (* Done panicked *)

Inductive caller_pc :=
| CNext (script : list (list byte))          (* next call: Write, or Close at the end *)
| C67 (p : list byte) (rest : list (list byte))   (* in b.w.Write(p) *)
| C76 (err : option error)                   (* Close: if err != nil { b.err = err } *)
| C79                                        (* Close: b.release.Wait() *)
| C80                                        (* Close: return b.err *)
| CRet (r : option error).                   (* Close has returned r *)

Inductive event :=
| EvRClose (err : option error)      (* the goroutine closed the read end *)
| EvRelease (err : option error)     (* the goroutine called Release(err) *)
| EvRead (bs : list byte)            (* a Read of the read end returned bs *)
| EvWriteRet (p : list byte) (n : nat) (err : option error).
                                     (* Write(p) on the handle returned (n, err) *)

Record state := mkState {
  st_fs : FS;
  st_pipe : pipe;
  st_b : BlockingWriteCloser PipeWriter;
  st_worker : worker_pc;
  st_caller : caller_pc;
  st_trace : list event       (* in the order of occurrence *)
}.

(** What [Put] sets up before it returns: the pipe, the handle, and the
    goroutine, at its first statement, with the arguments its closure
    captures. *)
Record spawned := mkSpawned {
  sp_pipe : pipe;
  sp_handle : BlockingWriteCloser PipeWriter;
  sp_request : Request;
  sp_worker : worker_pc
}.

(** [Put(bucket, object, md5HexString, size)], lines 15-17 and 55. *)
Definition Put (bucket object md5HexString : string) (size : Z)
  : spawned * option error :=
  let p := pipe_new in
  let blockingWriter := NewBlockingWriteCloser pipe_w in
  (mkSpawned p blockingWriter (mkRequest bucket object md5HexString size) W19,
   None).

(** The buffer of [io.Copy]. *)
Definition copy_buf_size : Z := 32 * 1024.

Section Upload.
Variable filepath_Join : string -> string -> string.
Variable rq : Request.

Definition objectPath : string := filepath_Join (bucket rq) (object rq).

(** What [io.CopyN(fs, r, size)] returns when its copy loop ends with
    [written] bytes copied and the error [err]. *)
Definition CopyN_result (written : Z) (err : option error) : option error :=
  if written =? size rq then None
  else if (written <? size rq) && bool_decide (err = None) then Some EOF
  else err.

(** Lines 46-52: where the goroutine goes with the error of [io.CopyN]. *)
Definition after_CopyN (err : option error) : worker_pc :=
  match err with
  | Some _ => WFail (iodine_New err)
  | None => W85 None ThenClose
  end.

Definition step_worker (s : state) : option state :=
  let goto pc := Some (mkState (st_fs s) (st_pipe s) (st_b s) pc (st_caller s) (st_trace s)) in
  match st_worker s with
  | W19 =>
      if (bucket rq =? "")%string || (object rq =? "")%string
      then goto (WFail (iodine_New (Some InvalidArgument)))
      else goto W26
  | W26 =>
      if size rq <? 0
      then goto (WFail (iodine_New (Some InvalidArgument)))
      else goto W32
  | W32 =>
      let '(fs', err) := os_Create objectPath (st_fs s) in
      let pc :=
        if os_IsExist err
        then WFail (iodine_New (Some (ObjectExists (bucket rq) (object rq))))
        else match err with
             | Some _ => WFail (iodine_New err)
             | None => W45 0 (size rq)
             end in
      Some (mkState fs' (st_pipe s) (st_b s) pc (st_caller s) (st_trace s))
  | W45 written N =>
      if N <=? 0
      then goto (after_CopyN (CopyN_result written None))
      else
        match pipe_read (Z.to_nat (Z.min copy_buf_size N)) (st_pipe s) with
        | ReadBlocked => None
        | ReadOk bs p' =>
            let pc := match bs with
                      | [] => W45 written N
                      | _ => W45w written (N - Z.of_nat (length bs)) bs
                      end in
            Some (mkState (st_fs s) p' (st_b s) pc (st_caller s)
                          (st_trace s ++ [EvRead bs]))
        | ReadErr e =>
            let err := if bool_decide (e = EOF) then None else Some e in
            goto (after_CopyN (CopyN_result written err))
        end
  | W45w written N buf =>
      Some (mkState (file_Write objectPath buf (st_fs s)) (st_pipe s) (st_b s)
                    (W45 (written + Z.of_nat (length buf)) N)
                    (st_caller s) (st_trace s))
  | WFail err =>
      Some (mkState (st_fs s) (pipe_rclose err (st_pipe s)) (st_b s)
                    (W85 err ThenReturn) (st_caller s)
                    (st_trace s ++ [EvRClose err]))
  | W85 err k =>
      match Release_Done (st_b s) with
      | Ok b' =>
          Some (mkState (st_fs s) (st_pipe s) b' (W86 err k) (st_caller s)
                        (st_trace s ++ [EvRelease err]))
      | Panic =>
          Some (mkState (st_fs s) (st_pipe s) (st_b s) WPanic (st_caller s)
                        (st_trace s ++ [EvRelease err]))
      end
  | W86 err k =>
      Some (mkState (st_fs s) (st_pipe s) (Release_store err (st_b s))
                    (match k with ThenReturn => WExit | ThenClose => W53 end)
                    (st_caller s) (st_trace s))
  | W53 =>
      Some (mkState (st_fs s) (pipe_rclose None (st_pipe s)) (st_b s) WExit
                    (st_caller s) (st_trace s ++ [EvRClose None]))
  | WExit | WPanic => None
  end.

(** The caller runs its script of [Write] calls and then calls [Close];
    [Write] is lines 67-69 and [Close] lines 75-80. *)
Definition step_caller (s : state) : option state :=
  match st_caller s with
  | CNext (p :: rest) =>
      match pipe_write_begin p (st_pipe s) with
      | inl p' =>
          Some (mkState (st_fs s) p' (st_b s) (st_worker s) (C67 p rest) (st_trace s))
      | inr e =>
          Some (mkState (st_fs s) (st_pipe s) (st_b s) (st_worker s) (CNext rest)
                        (st_trace s ++ [EvWriteRet p 0 (iodine_New (Some e))]))
      end
  | C67 p rest =>
      match pipe_write_wait p (st_pipe s) with
      | WriteBlocked => None
      | WriteRet n err p' =>
          Some (mkState (st_fs s) p' (st_b s) (st_worker s) (CNext rest)
                        (st_trace s ++ [EvWriteRet p n (iodine_New err)]))
      end
  | CNext [] =>
      Some (mkState (st_fs s) (pipe_wclose None (st_pipe s)) (st_b s)
                    (st_worker s) (C76 None) (st_trace s))
  | C76 err =>
      Some (mkState (st_fs s) (st_pipe s) (Close_capture err (st_b s))
                    (st_worker s) C79 (st_trace s))
  | C79 =>
      if Close_Wait_ready (st_b s)
      then Some (mkState (st_fs s) (st_pipe s) (st_b s) (st_worker s) C80 (st_trace s))
      else None
  | C80 =>
      Some (mkState (st_fs s) (st_pipe s) (st_b s) (st_worker s)
                    (CRet (bw_err (st_b s))) (st_trace s))
  | CRet _ => None
  end.

(** A panic aborts the whole program. *)
Definition step (t : tid) (s : state) : option state :=
  match st_worker s with
  | WPanic => None
  | _ =>
      match t with
      | Caller => step_caller s
      | Worker => step_worker s
      end
  end.

(** The program [Put(...)], then [Write] for each element of [script],
    then [Close], on the file system [fs]. *)
Definition upload (fs : FS) (script : list (list byte)) : state :=
  let sp := fst (Put (bucket rq) (object rq) (md5HexString rq) (size rq)) in
  mkState fs (sp_pipe sp) (sp_handle sp) (sp_worker sp) (CNext script) [].

End Upload.

(** ** Observations on traces *)

(** The two signals of the goroutine: closing the read end, and [Release]. *)
Definition is_signal (e : event) : bool :=
  match e with
  | EvRClose _ | EvRelease _ => true
  | _ => false
  end.

Definition signals (tr : list event) : list event := List.filter is_signal tr.

(** The bytes the goroutine has read from the pipe. *)
Fixpoint reads_of (tr : list event) : list byte :=
  match tr with
  | [] => []
  | EvRead bs :: tr' => bs ++ reads_of tr'
  | _ :: tr' => reads_of tr'
  end.

(** The bytes that the [Write] calls that have returned report as written. *)
Fixpoint acked_of (tr : list event) : list byte :=
  match tr with
  | [] => []
  | EvWriteRet p n _ :: tr' => take n p ++ acked_of tr'
  | _ :: tr' => acked_of tr'
  end.

(** Whenever a [Write(p)] has returned [(n, nil)], [n] is [len(p)] and the
    goroutine had by then read what the earlier calls wrote, and [p]. *)
Definition handoff_before_return (tr : list event) : Prop :=
  forall pre p n post,
    tr = pre ++ EvWriteRet p n None :: post ->
    n = length p /\ reads_of pre = acked_of pre ++ p.

(** ** Invariants of an upload, and the measure of its progress *)

Definition pipe_rank (p : pipe) : nat :=
  match data p with
  | Some _ => 1
  | None => 0
  end.

Definition caller_rank (pc : caller_pc) : nat :=
  match pc with
  | CNext script => 3 * length script + 5
  | C67 _ rest => 3 * length rest + 6
  | C76 _ => 4
  | C79 => 3
  | C80 => 2
  | CRet _ => 1
  end.

Section UploadInvariants.
Variable filepath_Join : string -> string -> string.
Variable rq : Request.

Definition worker_rank (pc : worker_pc) : nat :=
  match pc with
  | W19 => 2 * Z.to_nat (size rq) + 8
  | W26 => 2 * Z.to_nat (size rq) + 7
  | W32 => 2 * Z.to_nat (size rq) + 6
  | W45 _ N => 2 * Z.to_nat N + 5
  | W45w _ N _ => 2 * Z.to_nat N + 6
  | WFail _ => 4
  | W85 _ _ => 3
  | W86 _ _ => 2
  | W53 => 1
  | WExit | WPanic => 0
  end.

Definition measure (s : state) : nat :=
  worker_rank (st_worker s) + caller_rank (st_caller s) + pipe_rank (st_pipe s).

(** The latch and the two ends of the pipe, by the place of each thread. *)
Definition latch_inv (s : state) : Prop :=
  match st_caller s with
  | CNext _ | C67 _ _ => True
  | _ => werr (st_pipe s) <> None
  end /\
  match st_worker s with
  | W19 | W26 | W32 | W45 _ _ | W45w _ _ _ | WFail _ =>
      bw_release (st_b s) = 1
  | W85 _ k =>
      bw_release (st_b s) = 1 /\ (k = ThenReturn -> rerr (st_pipe s) <> None)
  | W86 _ k =>
      bw_release (st_b s) = 0 /\ (k = ThenReturn -> rerr (st_pipe s) <> None)
  | W53 => bw_release (st_b s) = 0
  | WExit => bw_release (st_b s) = 0 /\ rerr (st_pipe s) <> None
  | WPanic => False
  end.

(** The signals the goroutine has given, by its place. *)
Definition signal_inv (s : state) : Prop :=
  let sg := signals (st_trace s) in
  match st_worker s with
  | W19 | W26 | W32 | W45 _ _ | W45w _ _ _ => sg = []
  | WFail err => sg = [] /\ err <> None
  | W85 err ThenReturn => sg = [EvRClose err] /\ err <> None
  | W86 err ThenReturn => sg = [EvRClose err; EvRelease err] /\ err <> None
  | W85 err ThenClose => sg = [] /\ err = None
  | W86 err ThenClose => sg = [EvRelease None] /\ err = None
  | W53 => sg = [EvRelease None]
  | WExit =>
      (exists e, sg = [EvRClose (Some e); EvRelease (Some e)]) \/
      sg = [EvRelease None; EvRClose None]
  | WPanic => False
  end.

(** The bytes read from the pipe against the bytes written into it. *)
Definition sync_inv (s : state) : Prop :=
  let tr := st_trace s in
  handoff_before_return tr /\
  match st_caller s with
  | C67 p _ =>
      match data (st_pipe s) with
      | Some d => exists c, p = c ++ d /\ reads_of tr = acked_of tr ++ c
      | None => reads_of tr = acked_of tr ++ p
      end
  | _ => data (st_pipe s) = None /\ reads_of tr = acked_of tr
  end.

(** The bytes of the script that have not yet been read from the pipe. *)
Definition unread (s : state) : list byte :=
  match st_caller s with
  | CNext rest => concat rest
  | C67 _ rest => default [] (data (st_pipe s)) ++ concat rest
  | _ => []
  end.

(** The goroutine's part of the invariant of an upload of the bytes [all]
    that nothing refuses: [r] is the error the read end is closed with,
    [F] the object file and [u] the unread bytes. *)
Definition success_worker (all : list byte) (pc : worker_pc)
    (r : option error) (F : option (list byte)) (u : list byte) : Prop :=
  match pc with
  | W19 | W26 | W32 => r = None /\ u = all
  | W45 written N =>
      r = None /\
      exists c, F = Some c /\ c ++ u = all /\
                N = Z.of_nat (length u) /\ written = Z.of_nat (length c)
  | W45w written N buf =>
      r = None /\
      exists c, F = Some c /\ c ++ buf ++ u = all /\
                N = Z.of_nat (length u) /\ written = Z.of_nat (length c)
  | W85 err ThenClose | W86 err ThenClose =>
      err = None /\ r = None /\ F = Some all /\ u = []
  | W53 => r = None /\ F = Some all /\ u = []
  | WExit => F = Some all /\ u = []
  | WFail _ | W85 _ ThenReturn | W86 _ ThenReturn | WPanic => False
  end.

(** The invariant of an upload of the bytes [all] that nothing refuses. *)
Definition success_inv (all : list byte) (s : state) : Prop :=
  let path := objectPath filepath_Join rq in
  let p := st_pipe s in
  bw_err (st_b s) = None /\
  refused (st_fs s) !! path = None /\
  match st_caller s with
  | CNext _ => data p = None /\ werr p = None
  | C67 _ _ => werr p = None
  | C76 err => data p = None /\ werr p = Some EOF /\ err = None
  | C79 | C80 => data p = None /\ werr p = Some EOF
  | CRet r => data p = None /\ werr p = Some EOF /\ r = None
  end /\
  success_worker all (st_worker s) (rerr p) (files (st_fs s) !! path) (unread s).

(** The invariant of an upload whose request is rejected by lines 19-31:
    [fs0] is the file system at the start. *)
Definition reject_inv (fs0 : FS) (s : state) : Prop :=
  let invalid := Some (IodineError InvalidArgument) in
  let sg := signals (st_trace s) in
  st_fs s = fs0 /\
  match st_caller s with
  | C76 err => err = None
  | CRet r => r = None \/ r = invalid
  | _ => True
  end /\
  match st_worker s with
  | W19 => bw_err (st_b s) = None /\ sg = []
  | W26 => bw_err (st_b s) = None /\ sg = [] /\ size rq < 0
  | WFail err => err = invalid /\ bw_err (st_b s) = None /\ sg = []
  | W85 err ThenReturn =>
      err = invalid /\ bw_err (st_b s) = None /\ sg = [EvRClose invalid]
  | W86 err ThenReturn =>
      err = invalid /\ bw_err (st_b s) = None /\
      sg = [EvRClose invalid; EvRelease invalid]
  | WExit =>
      bw_err (st_b s) = invalid /\ sg = [EvRClose invalid; EvRelease invalid]
  | _ => False
  end.

(** The goroutine's part of the invariant of an upload of the bytes [all],
    fewer than the declared size, that nothing refuses: [r], [F] and [u]
    are as in [success_worker], [berr] is [b.err] and [sg] the signals
    given. *)
Definition short_worker (all : list byte) (pc : worker_pc)
    (r : option error) (F : option (list byte)) (u : list byte)
    (berr : option error) (sg : list event) : Prop :=
  let eof := Some (IodineError EOF) in
  match pc with
  | W19 | W26 | W32 => r = None /\ u = all /\ berr = None /\ sg = []
  | W45 written N =>
      r = None /\ berr = None /\ sg = [] /\
      exists c, F = Some c /\ c ++ u = all /\
                N = size rq - Z.of_nat (length c) /\
                written = Z.of_nat (length c)
  | W45w written N buf =>
      r = None /\ berr = None /\ sg = [] /\
      exists c, F = Some c /\ c ++ buf ++ u = all /\
                N = size rq - Z.of_nat (length c) - Z.of_nat (length buf) /\
                written = Z.of_nat (length c)
  | WFail err =>
      err = eof /\ r = None /\ berr = None /\ sg = [] /\
      F = Some all /\ u = []
  | W85 err ThenReturn =>
      err = eof /\ berr = None /\ sg = [EvRClose eof] /\
      F = Some all /\ u = []
  | W86 err ThenReturn =>
      err = eof /\ berr = None /\ sg = [EvRClose eof; EvRelease eof] /\
      F = Some all /\ u = []
  | WExit =>
      berr = eof /\ sg = [EvRClose eof; EvRelease eof] /\
      F = Some all /\ u = []
  | W85 _ ThenClose | W86 _ ThenClose | W53 | WPanic => False
  end.

(** The invariant of an upload of the bytes [all], fewer than the declared
    size, that nothing refuses. *)
Definition short_inv (all : list byte) (s : state) : Prop :=
  let path := objectPath filepath_Join rq in
  let p := st_pipe s in
  refused (st_fs s) !! path = None /\
  match st_caller s with
  | CNext _ => data p = None /\ werr p = None
  | C67 _ _ => werr p = None
  | C76 err => data p = None /\ werr p = Some EOF /\ err = None
  | C79 | C80 => data p = None /\ werr p = Some EOF
  | CRet r =>
      data p = None /\ werr p = Some EOF /\
      (r = None \/ r = Some (IodineError EOF))
  end /\
  short_worker all (st_worker s) (rerr p) (files (st_fs s) !! path) (unread s)
               (bw_err (st_b s)) (signals (st_trace s)).

End UploadInvariants.

(** ** Invariant of [Close] against [Release] *)

Section CloseReleaseInvariant.
Context {W : Type}.
Variable w_Close : W -> W * option error.
Variable rel_err : option error.
Variable w0 : W.

(** The error that [b.w.Close()] returns. *)
Definition cr_cerr : option error := snd (w_Close w0).

(** What [b.err] holds once [Release] has or has not stored its error. *)
Definition stored (pc : releaser_pc) : option error :=
  match pc with
  | RRet => rel_err
  | _ => None
  end.

Definition cr_rank (s : cr_state W) : nat :=
  match cr_closer s with
  | K75 => 4 | K76 _ => 3 | K79 => 2 | K80 => 1 | KRet _ => 0
  end +
  match cr_releaser s with
  | R85 => 2 | R86 => 1 | RRet | RPanic => 0
  end.

Definition cr_inv (s : cr_state W) : Prop :=
  let b := cr_b s in
  bw_release b = match cr_releaser s with R85 => 1 | _ => 0 end /\
  cr_releaser s <> RPanic /\
  match cr_closer s with
  | K75 => bw_w b = w0 /\ bw_err b = stored (cr_releaser s)
  | K76 err =>
      bw_w b = fst (w_Close w0) /\ err = cr_cerr /\ bw_err b = stored (cr_releaser s)
  | K79 | K80 =>
      bw_w b = fst (w_Close w0) /\
      (cr_closer s = K80 -> cr_releaser s <> R85) /\
      if aux_stored_at_capture s
      then cr_releaser s = RRet /\ bw_err b = prefer cr_cerr rel_err
      else bw_err b = prefer (stored (cr_releaser s)) cr_cerr
  | KRet r =>
      bw_w b = fst (w_Close w0) /\
      cr_releaser s <> R85 /\
      r = if aux_stored_at_capture s then prefer cr_cerr rel_err
          else if aux_stored_at_read s then prefer rel_err cr_cerr
          else cr_cerr
  end.

End CloseReleaseInvariant.

(** ** Concrete inputs *)

(** [filepath.Join] on two names without separators or dots. *)
Definition slash_join (b o : string) : string := (b ++ "/" ++ o)%string.

(** The directory [b] exists and is empty. *)
Definition fs_empty_bucket : FS := mkFS ∅ ∅.

(** The directory [b] is missing: [open(2)] refuses [b/o.txt] with
    [ENOENT]. *)
Definition fs_without_bucket : FS :=
  mkFS ∅ {[ "b/o.txt"%string := ENOENT ]}.

(** The object file [b/o.txt] exists already. *)
Definition fs_with_object : FS :=
  mkFS {[ "b/o.txt"%string := list_byte_of_string "old" ]} ∅.

Definition hello : list byte := list_byte_of_string "hello".

(** ** More invariants of an upload *)

(** The [Write] calls that have returned. *)
Fixpoint writes_returned (tr : list event) : nat :=
  match tr with
  | [] => 0
  | EvWriteRet _ _ _ :: tr' => S (writes_returned tr')
  | _ :: tr' => writes_returned tr'
  end.

(** The [Write] calls the caller has still to return from. *)
Definition writes_pending (pc : caller_pc) : nat :=
  match pc with
  | CNext script => length script
  | C67 _ rest => S (length rest)
  | _ => 0
  end.

(** Every [Write] that has returned wrote nothing and returned [err]. *)
Definition writes_failed_with (err : error) (tr : list event) : Prop :=
  Forall (fun ev => match ev with
                    | EvWriteRet _ n e => n = 0%nat /\ e = Some err
                    | _ => True
                    end) tr.

Section UploadOutcomes.
Variable filepath_Join : string -> string -> string.
Variable rq : Request.

(** The error with which lines 19-44 make the goroutine give up before it
    copies anything, on the file system [fs]; [None] when it gets to line
    45. *)
Definition early_failure (fs : FS) : option error :=
  if (bucket rq =? "")%string || (object rq =? "")%string
  then Some (IodineError InvalidArgument)
  else if size rq <? 0 then Some (IodineError InvalidArgument)
  else match refused fs !! objectPath filepath_Join rq with
       | Some EEXIST => Some (IodineError (ObjectExists (bucket rq) (object rq)))
       | Some e => Some (IodineError (PathError (objectPath filepath_Join rq) e))
       | None => None
       end.

(** The invariant of an upload that gives up with [rej] before it copies;
    [fs0] is the file system at the start. *)
Definition early_inv (rej : error) (fs0 : FS) (s : state) : Prop :=
  let p := st_pipe s in
  let sg := signals (st_trace s) in
  let berr := bw_err (st_b s) in
  st_fs s = fs0 /\
  reads_of (st_trace s) = [] /\
  writes_failed_with (IodineError rej) (st_trace s) /\
  match st_caller s with
  | CNext _ => data p = None /\ werr p = None
  | C67 q _ => data p = Some q /\ werr p = None
  | C76 err => data p = None /\ err = None
  | C79 | C80 => data p = None
  | CRet r => data p = None /\ (r = None \/ r = Some rej)
  end /\
  match st_worker s with
  | W19 => berr = None /\ sg = [] /\ rerr p = None
  | W26 =>
      berr = None /\ sg = [] /\ rerr p = None /\
      (bucket rq =? "")%string || (object rq =? "")%string = false
  | W32 =>
      berr = None /\ sg = [] /\ rerr p = None /\
      (bucket rq =? "")%string || (object rq =? "")%string = false /\
      (size rq <? 0) = false
  | WFail err => err = Some rej /\ berr = None /\ sg = [] /\ rerr p = None
  | W85 err ThenReturn =>
      err = Some rej /\ berr = None /\ sg = [EvRClose (Some rej)] /\
      rerr p = Some rej
  | W86 err ThenReturn =>
      err = Some rej /\ berr = None /\
      sg = [EvRClose (Some rej); EvRelease (Some rej)] /\ rerr p = Some rej
  | WExit =>
      berr = Some rej /\
      sg = [EvRClose (Some rej); EvRelease (Some rej)] /\ rerr p = Some rej
  | _ => False
  end.

(** The file system once the object file holds [c]. *)
Definition created (fs0 : FS) (c : list byte) : FS :=
  mkFS (<[objectPath filepath_Join rq := c]> (files fs0)) (refused fs0).

(** The goroutine's part of the invariant of an upload that gets to the
    copy, for a caller that writes the bytes [all]: [r] is the error the
    read end is closed with, [fs] the file system, [u] the unread bytes,
    [rd] the bytes read from the pipe and [berr] is [b.err]. *)
Definition copy_worker (all : list byte) (fs0 : FS) (pc : worker_pc)
    (r : option error) (fs : FS) (u rd : list byte) (berr : option error)
  : Prop :=
  let eof := Some (IodineError EOF) in
  let full c :=
    Z.of_nat (length c) = size rq /\ exists rest, c ++ rest = all in
  let short := Z.of_nat (length all) < size rq in
  match pc with
  | W19 | W26 | W32 => r = None /\ fs = fs0 /\ rd = [] /\ u = all /\ berr = None
  | W45 written N =>
      r = None /\ berr = None /\
      exists c, fs = created fs0 c /\ rd = c /\ c ++ u = all /\
                N = size rq - Z.of_nat (length c) /\ 0 <= N /\
                written = Z.of_nat (length c)
  | W45w written N buf =>
      r = None /\ berr = None /\
      exists c, fs = created fs0 c /\ rd = c ++ buf /\ c ++ buf ++ u = all /\
                N = size rq - Z.of_nat (length c) - Z.of_nat (length buf) /\
                0 <= N /\ written = Z.of_nat (length c)
  | WFail err | W85 err ThenReturn | W86 err ThenReturn =>
      err = eof /\ berr = None /\ fs = created fs0 all /\ rd = all /\ short
  | W85 err ThenClose | W86 err ThenClose =>
      err = None /\ berr = None /\
      exists c, fs = created fs0 c /\ rd = c /\ full c
  | W53 => berr = None /\ exists c, fs = created fs0 c /\ rd = c /\ full c
  | WExit =>
      exists c, fs = created fs0 c /\ rd = c /\
                ((berr = None /\ full c) \/ (berr = eof /\ c = all /\ short))
  | WPanic => False
  end.

(** The invariant of an upload that gets to the copy. *)
Definition copy_inv (all : list byte) (fs0 : FS) (s : state) : Prop :=
  let p := st_pipe s in
  let short_eof r :=
    r = None \/
    (r = Some (IodineError EOF) /\ Z.of_nat (length all) < size rq) in
  match st_caller s with
  | CNext _ => data p = None /\ werr p = None
  | C67 _ _ => werr p = None
  | C76 err => data p = None /\ werr p = Some EOF /\ err = None
  | C79 | C80 => data p = None /\ werr p = Some EOF
  | CRet r => data p = None /\ werr p = Some EOF /\ short_eof r
  end /\
  copy_worker all fs0 (st_worker s) (rerr p) (st_fs s) (unread s)
              (reads_of (st_trace s)) (bw_err (st_b s)).

End UploadOutcomes.

(** ** The caption of the progress bar ([progress-bar.go])

    A Go [int] is taken to be 64 bits wide: [wrap_int] is the wrap-around
    of its arithmetic. *)

Definition is_int (z : Z) : Prop := - 2 ^ 63 <= z < 2 ^ 63.

Definition wrap_int (z : Z) : Z := (z + 2 ^ 63) mod 2 ^ 64 - 2 ^ 63.

(** [getFixedWidth(width, percent)]: [width * percent / 100], where Go's
    [/] truncates towards zero. *)
Definition getFixedWidth (width percent : Z) : Z :=
  Z.quot (wrap_int (width * percent)) 100.

(** [fixateBarCaption(caption, width)].  The slice [caption[trimSize:]]
    panics when [trimSize] is negative. *)
Definition fixateBarCaption (caption : list byte) (width : Z)
  : outcome (list byte) :=
  let len := Z.of_nat (length caption) in
  if width <? len then
    let trimSize := wrap_int (wrap_int (len - width) + 3) in
    if trimSize <? len then
      if trimSize <? 0 then Panic
      else Ok (list_byte_of_string "..." ++ drop (Z.to_nat trimSize) caption)
    else Ok caption
  else if len <? width then
    Ok (caption ++ replicate (Z.to_nat (wrap_int (width - len))) " "%byte)
  else Ok caption.

(** [SetCaption(caption)] on a bar whose [GetWidth()] returns [barWidth]:
    the prefix that it sets. *)
Definition SetCaption (barWidth : Z) (caption : list byte)
  : outcome (list byte) :=
  fixateBarCaption caption (getFixedWidth barWidth 18).

(** ** Facts about interleavings *)

Section InterleavingFacts.
Context {St : Type}.
Variable step : tid -> St -> option St.

Lemma run_cons t sched (s s' : St) :
  step t s = Some s' -> run step (t :: sched) s = run step sched s'.
Proof. intros E. simpl. rewrite E. reflexivity. Qed.

(** An invariant of the initial state that every step preserves holds
    after every schedule. *)
Lemma run_invariant (Inv : St -> Prop) :
  (forall t s s', Inv s -> step t s = Some s' -> Inv s') ->
  forall sched s, Inv s -> Inv (run step sched s).
Proof.
  intros Hstep sched; induction sched as [|t l IH]; intros s Hs; simpl; auto.
  apply IH. destruct (step t s) as [s'|] eqn:E; simpl; eauto.
Qed.

Lemma terminal_run sched (s : St) : terminal step s -> run step sched s = s.
Proof.
  intros Ht. induction sched as [|t l IHl]; simpl; auto. rewrite Ht; simpl; auto.
Qed.

Lemma inevitably_run P (s : St) :
  inevitably step P s ->
  forall sched, terminal step (run step sched s) -> P (run step sched s).
Proof.
  induction 1 as [s Ht HP | s H _ IH]; intros sched.
  - intros _. rewrite terminal_run; auto.
  - revert s H IH. induction sched as [|t l IHl]; intros s H IH Hterm; simpl in *.
    + exfalso. destruct H as (t & s' & H). rewrite Hterm in H; discriminate.
    + destruct (step t s) as [s'|] eqn:E; simpl in *.
      * apply (IH t s' E l Hterm).
      * apply IHl; auto.
Qed.

(** The proof rule for [inevitably]: an invariant under which a stopped
    state satisfies [P], and a measure that every step decreases. *)
Lemma inevitably_intro (Inv P : St -> Prop) (m : St -> nat) :
  (forall s, Inv s -> terminal step s -> P s) ->
  (forall t s s', Inv s -> step t s = Some s' -> Inv s' /\ (m s' < m s)%nat) ->
  forall s, Inv s -> inevitably step P s.
Proof.
  intros Hterm Hstep s.
  remember (m s) as n eqn:En. revert s En.
  induction n as [n IH] using lt_wf_ind. intros s -> Hs.
  assert (Hnext : forall t s', step t s = Some s' -> inevitably step P s').
  { intros t s' E. destruct (Hstep t s s' Hs E) as [Hi Hm].
    apply (IH (m s') Hm s' eq_refl Hi). }
  destruct (step Caller s) as [sc|] eqn:Ec.
  - apply inev_step; [exists Caller, sc; auto|auto].
  - destruct (step Worker s) as [sw|] eqn:Ew.
    + apply inev_step; [exists Worker, sw; auto|auto].
    + apply inev_stop; [intros []; auto|].
      apply Hterm; [auto|intros []; auto].
Qed.

(** A property of the stopped states can be strengthened by anything
    that holds along all executions. *)
Lemma inevitably_strengthen (Inv P Q : St -> Prop) :
  (forall t s s', Inv s -> step t s = Some s' -> Inv s') ->
  (forall s, Inv s -> P s -> Q s) ->
  forall s, Inv s -> inevitably step P s -> inevitably step Q s.
Proof.
  intros Hstep HPQ s Hs H. induction H as [s Ht HP | s Hex _ IH].
  - apply inev_stop; auto.
  - apply inev_step; auto. intros t s' E. apply (IH t s' E). eauto.
Qed.

End InterleavingFacts.

(** ** [Release] and the latch *)

(** C3: on a handle made by [NewBlockingWriteCloser], one [Release] does
    not panic and leaves the counter at zero; a second [Release] on the
    same handle panics, whatever errors are passed and whether or not
    [Close] has stored its own error in between. *)
Theorem Release_twice_panics {W} (w : W) (e1 e2 cerr : option error) :
  exists b',
    Release e1 (NewBlockingWriteCloser w) = Ok b' /\
    bw_release b' = 0 /\
    Release e2 b' = Panic /\
    Release e2 (Close_capture cerr b') = Panic.
Proof.
  exists (Release_store e1 (mkBWC w 0 None)).
  destruct e1, e2, cerr; repeat split; reflexivity.
Qed.

(** X15: run by one thread, [Close] alone on a fresh handle stays blocked
    in [Wait]; after one [Release] it returns the error of the writer's
    [Close] if there is one, and else the error passed to [Release]. *)
Lemma Close_alone {W} (w_Close : W -> W * option error) (w : W)
    (rel_err : option error) :
  Close w_Close (NewBlockingWriteCloser w) = None /\
  exists b1 b2,
    Release rel_err (NewBlockingWriteCloser w) = Ok b1 /\
    Close w_Close b1 = Some (b2, prefer (snd (w_Close w)) rel_err).
Proof.
  unfold Close, Release.
  destruct (w_Close w) as [w' ce] eqn:E. split.
  - simpl. rewrite E. destruct ce; reflexivity.
  - exists (Release_store rel_err (mkBWC w 0 None)). eexists.
    split; [reflexivity|].
    replace (bw_w (Release_store rel_err (mkBWC w 0 None))) with w
      by (destruct rel_err; reflexivity).
    rewrite E. destruct ce, rel_err; reflexivity.
Qed.

(** ** [Close] against [Release] *)

Section CloseReleaseFacts.
Context {W : Type}.
Variable w_Close : W -> W * option error.
Variable rel_err : option error.
Variable w0 : W.

Lemma cr_inv_init : cr_inv w_Close rel_err w0 (cr_init w0).
Proof. repeat split; discriminate. Qed.

Lemma cr_inv_step t s s' :
  cr_inv w_Close rel_err w0 s -> cr_step w_Close rel_err t s = Some s' ->
  cr_inv w_Close rel_err w0 s' /\ (cr_rank s' < cr_rank s)%nat.
Proof.
  destruct s as [[w rel e] kc kr sac sar].
  unfold cr_inv, cr_cerr, cr_step, cr_step_closer, cr_step_releaser, cr_rank,
    Close_Wait_ready, wg_Wait_ready, Release_Done, wg_Done, wg_Add,
    Release_store, Close_capture, releaser_returned, stored; simpl.
  intros (Hrel & Hp & H) Hs.
  destruct t, kr; try congruence; destruct kc; simpl in *;
    try discriminate; subst rel; simpl in *;
    try (destruct (w_Close w) as [w' ce] eqn:Ew);
    simplify_eq; simpl in *;
    repeat match goal with
           | H : _ /\ _ |- _ => destruct H
           end; subst; simpl in *;
    try rewrite Ew in *; simpl in *;
    (split; [|lia]);
    repeat split; try discriminate; try congruence; auto;
    unfold prefer in *;
    repeat match goal with
           | H : _ /\ _ |- _ => destruct H
           | |- context [match ?x with _ => _ end] => destruct x eqn:?
           | H : context [match ?x with _ => _ end] |- _ => destruct x eqn:?
           end; simpl in *; subst; try discriminate; try congruence; auto.
Qed.

Lemma cr_inv_run sched : cr_inv w_Close rel_err w0 (run (cr_step w_Close rel_err) sched (cr_init w0)).
Proof.
  apply run_invariant; [|apply cr_inv_init].
  intros t s s' Hi Hs. apply (cr_inv_step t s s' Hi Hs).
Qed.

Lemma cr_terminal s :
  cr_inv w_Close rel_err w0 s -> terminal (cr_step w_Close rel_err) s ->
  cr_releaser s = RRet /\ exists r, cr_closer s = KRet r.
Proof.
  destruct s as [[w rel e] kc kr sac sar].
  intros (Hrel & Hp & H) Ht.
  pose proof (Ht Caller) as Hc. pose proof (Ht Worker) as Hw.
  unfold cr_step, cr_step_closer, cr_step_releaser, Close_Wait_ready,
    wg_Wait_ready, Release_Done, wg_Done, wg_Add in Hc, Hw.
  simpl in *.
  destruct kr; try congruence; subst rel; simpl in *; try discriminate.
  destruct kc; try discriminate; eauto.
  destruct (w_Close w); discriminate.
Qed.

End CloseReleaseFacts.




(** ** Traces *)

Lemma signals_app tr1 tr2 : signals (tr1 ++ tr2) = signals tr1 ++ signals tr2.
Proof. apply List.filter_app. Qed.

Lemma reads_of_app tr1 tr2 : reads_of (tr1 ++ tr2) = reads_of tr1 ++ reads_of tr2.
Proof.
  induction tr1 as [|[] tr1 IH]; simpl; auto. rewrite IH, app_assoc; auto.
Qed.

Lemma acked_of_app tr1 tr2 : acked_of (tr1 ++ tr2) = acked_of tr1 ++ acked_of tr2.
Proof.
  induction tr1 as [|[] tr1 IH]; simpl; auto. rewrite IH, app_assoc; auto.
Qed.

(** ** The pipe *)

Lemma pipe_read_ok cap p bs p' :
  pipe_read cap p = ReadOk bs p' ->
  exists d, data p = Some d /\ rerr p = None /\ bs = take cap d /\
    p' = mkPipe (match drop cap d with [] => None | d' => Some d' end)
                (rerr p) (werr p).
Proof.
  unfold pipe_read. destruct (rerr p); [discriminate|].
  destruct (data p) as [d|].
  - intros [= <- <-]. eauto.
  - destruct (werr p); discriminate.
Qed.

Lemma pipe_read_blocked cap p :
  pipe_read cap p = ReadBlocked ->
  data p = None /\ rerr p = None /\ werr p = None.
Proof.
  unfold pipe_read. destruct (rerr p); [discriminate|].
  destruct (data p); [discriminate|]. destruct (werr p); [discriminate|auto].
Qed.

Lemma pipe_read_err cap p e :
  pipe_read cap p = ReadErr e ->
  (rerr p <> None /\ e = ErrClosedPipe) \/
  (rerr p = None /\ data p = None /\ werr p = Some e).
Proof.
  unfold pipe_read. destruct (rerr p); [intros [= <-]; left; auto|].
  destruct (data p); [discriminate|].
  destruct (werr p); [intros [= <-]; right; auto|discriminate].
Qed.

Lemma take_nil_inv {A} (n : nat) (l : list A) : (0 < n)%nat -> take n l = [] -> l = [].
Proof. destruct n, l; simpl; auto; try lia; discriminate. Qed.

(** ** The latch, and termination *)

Ltac rank_tac :=
  unfold pipe_rank in *; simpl in *; repeat case_match; simplify_eq;
  simpl in *; lia.

Section UploadFacts.
Variable filepath_Join : string -> string -> string.
Variable rq : Request.

Lemma latch_inv_step t s s' :
  latch_inv s -> step filepath_Join rq t s = Some s' ->
  latch_inv s' /\ (measure rq s' < measure rq s)%nat.
Proof.
  destruct s as [fs p [w rel e] wk cl tr].
  unfold latch_inv, step, measure; simpl. intros [Hc Hw] Hs.
  destruct t.
  - (* the caller *)
    assert (Hwk : wk <> WPanic) by (intros ->; auto).
    assert (Hs' : step_caller (mkState fs p (mkBWC w rel e) wk cl tr) = Some s')
      by (destruct wk; auto; congruence).
    clear Hs. unfold step_caller in Hs'; simpl in Hs'.
    destruct cl as [[|q rest]|q rest|err| | |r]; simpl in Hs'.
    + simplify_eq; simpl.
      split; [split; [discriminate|destruct wk; simpl in *; auto]|rank_tac].
    + unfold pipe_write_begin in Hs'. destruct (werr p) eqn:Ew; simplify_eq.
      * split; [split; simpl; auto|rank_tac].
      * split; [split; simpl; auto; destruct wk; simpl in *; auto|rank_tac].
    + unfold pipe_write_wait in Hs'. destruct (data p) eqn:Ed.
      * destruct (rerr p) eqn:Er; simplify_eq.
        split; [split; simpl; auto|rank_tac].
      * simplify_eq. split; [split; simpl; auto|rank_tac].
    + simplify_eq.
      split; [split; simpl; auto|rank_tac].
      unfold Close_capture. destruct err; simpl; destruct wk; auto.
    + unfold Close_Wait_ready in Hs'; simpl in Hs'.
      destruct (wg_Wait_ready rel); simplify_eq.
      split; [split; simpl; auto|rank_tac].
    + simplify_eq. split; [split; simpl; auto|rank_tac].
    + discriminate.
  - (* the goroutine *)
    assert (Hs' : step_worker filepath_Join rq
                    (mkState fs p (mkBWC w rel e) wk cl tr) = Some s')
      by (destruct wk; auto; congruence).
    clear Hs. unfold step_worker in Hs'; simpl in Hs'.
    destruct wk as [ | | |written N|written N buf|err|err k|err k| | | ];
      simpl in Hs'.
    + destruct (_ || _); simplify_eq; (split; [split; simpl; auto|rank_tac]).
    + destruct (size rq <? 0); simplify_eq; (split; [split; simpl; auto|rank_tac]).
    + destruct (os_Create _ fs) as [fs' err].
      destruct (os_IsExist err); [|destruct err]; simplify_eq;
        (split; [split; simpl; auto|rank_tac]).
    + destruct (N <=? 0) eqn:EN.
      * unfold after_CopyN in Hs'.
        destruct (CopyN_result rq written None); simplify_eq;
          (split; [split; simpl; auto; split; auto; discriminate|rank_tac]).
      * apply Z.leb_gt in EN.
        destruct (pipe_read _ p) as [|bs p'|e'] eqn:Er; [discriminate| |].
        -- apply pipe_read_ok in Er as (d & Ed & Err & -> & ->).
           simplify_eq. split; [split; simpl|].
           ++ destruct cl; auto.
           ++ destruct (take _ d); auto.
           ++ unfold pipe_rank; simpl. rewrite Ed.
              destruct (take _ d) as [|x bs] eqn:Et; simpl.
              ** apply take_nil_inv in Et; [|unfold copy_buf_size; lia].
                 subst d. rewrite drop_nil. lia.
              ** destruct (drop _ d); lia.
        -- unfold after_CopyN in Hs'.
           destruct (CopyN_result rq written _); simplify_eq;
             (split; [split; simpl; auto; split; auto; discriminate|rank_tac]).
    + simplify_eq. split; [split; simpl; auto|rank_tac].
    + simplify_eq. split; [split; simpl|rank_tac].
      * destruct cl; auto.
      * split; auto; discriminate.
    + unfold Release_Done, wg_Done, wg_Add in Hs'; simpl in Hs'.
      destruct Hw as [-> Hk]. simpl in Hs'. simplify_eq.
      split; [split; simpl; auto|rank_tac].
    + simplify_eq. destruct Hw as [-> Hk].
      split; [split; simpl; auto|rank_tac].
      unfold Release_store. destruct err, k; simpl; auto.
    + simplify_eq. split; [split; simpl|rank_tac].
      * destruct cl; auto.
      * split; auto; discriminate.
    + discriminate.
    + discriminate.
Qed.

Lemma latch_inv_init fs script :
  latch_inv (upload rq fs script).
Proof. split; reflexivity. Qed.

Lemma latch_terminal s :
  latch_inv s -> terminal (step filepath_Join rq) s ->
  st_worker s = WExit /\ exists r, st_caller s = CRet r.
Proof.
  destruct s as [fs p [w rel e] wk cl tr].
  unfold latch_inv; simpl. intros [Hc Hw] Ht.
  pose proof (Ht Caller) as HC. pose proof (Ht Worker) as HW.
  unfold step, step_caller, step_worker in HC, HW; simpl in HC, HW.
  destruct wk as [ | | |written N|written N buf|err|err k|err k| | | ];
    simpl in *; try discriminate; try contradiction.
  - destruct (_ || _); discriminate.
  - destruct (size rq <? 0); discriminate.
  - destruct (os_Create _ fs) as [fs' err]. discriminate.
  - exfalso. destruct (N <=? 0); [discriminate|].
    destruct (pipe_read _ p) as [|bs p'|e'] eqn:Er; try discriminate.
    apply pipe_read_blocked in Er as (Ed & Er & Ew).
    unfold pipe_write_begin, pipe_write_wait in HC.
    rewrite Ed, ?Ew in HC.
    destruct cl as [[|q rest]|q rest|? | | |r]; try discriminate; auto.
  - unfold Release_Done, wg_Done, wg_Add in HW; simpl in HW.
    destruct Hw as [-> _]. discriminate.
  - destruct Hw as [-> Hr]. split; auto.
    unfold pipe_write_begin, pipe_write_wait, Close_Wait_ready in HC.
    simpl in HC.
    destruct cl as [[|q rest]|q rest|? | | |r]; try discriminate; eauto.
    + destruct (werr p); discriminate.
    + destruct (data p); [|discriminate]. destruct (rerr p); [discriminate|].
      contradiction.
Qed.

(** Every execution of an upload is finite and stops with the goroutine
    returned and [Close] returned. *)
Lemma upload_terminates fs script :
  inevitably (step filepath_Join rq)
    (fun s => st_worker s = WExit /\ exists r, st_caller s = CRet r)
    (upload rq fs script).
Proof.
  apply (inevitably_intro _ latch_inv _ (measure rq)).
  - apply latch_terminal.
  - apply latch_inv_step.
  - apply latch_inv_init.
Qed.

End UploadFacts.

(** ** The two signals of the goroutine *)

Section SignalFacts.
Variable filepath_Join : string -> string -> string.
Variable rq : Request.

Lemma signal_inv_step t s s' :
  latch_inv s -> signal_inv s -> step filepath_Join rq t s = Some s' ->
  signal_inv s'.
Proof.
  destruct s as [fs p [w rel e] wk cl tr].
  unfold latch_inv, signal_inv, step; simpl. intros [_ Hl] Hi Hs.
  destruct t.
  - (* the caller: its events are no signals *)
    assert (Hs' : step_caller (mkState fs p (mkBWC w rel e) wk cl tr) = Some s')
      by (destruct wk; auto; congruence).
    clear Hs. unfold step_caller in Hs'; simpl in Hs'.
    assert (st_worker s' = wk /\ signals (st_trace s') = signals tr) as [-> ->].
    { repeat match type of Hs' with
             | context [match ?x with _ => _ end] => destruct x eqn:?
             end; simplify_eq; simpl; rewrite ?signals_app; simpl;
        rewrite ?app_nil_r; auto. }
    exact Hi.
  - assert (Hs' : step_worker filepath_Join rq
                    (mkState fs p (mkBWC w rel e) wk cl tr) = Some s')
      by (destruct wk; auto; congruence).
    clear Hs. unfold step_worker, after_CopyN in Hs'; simpl in Hs'.
    unfold Release_Done, wg_Done, wg_Add in Hs'; simpl in Hs'.
    destruct wk as [ | | |written N|written N buf|err|err k|err k| | | ];
      simpl in *;
      repeat match type of Hs' with
             | context [match ?x with _ => _ end] => destruct x eqn:?
             end; simplify_eq; simpl;
      rewrite ?signals_app; simpl;
      repeat match goal with H : _ /\ _ |- _ => destruct H end;
      subst; simpl; rewrite ?app_nil_r;
      try match goal with H : signals _ = _ |- _ => rewrite H end;
      simpl; auto; try (split; [reflexivity|discriminate]);
      try discriminate; try lia; try contradiction.
    all: try (left; match goal with
                    | |- context [EvRClose (Some ?e)] => exists e; reflexivity
                    end).
    all: try match goal with H : ?x <> ?x |- _ => destruct H; reflexivity end.
    all: try (destruct k; destruct Hi as [Hi ?]; rewrite Hi; subst; simpl;
              split; auto; fail).
    all: try (destruct err as [e0|]; [left; exists e0; reflexivity|congruence]).
Qed.

Lemma signal_inv_init fs script : signal_inv (upload rq fs script).
Proof. reflexivity. Qed.

End SignalFacts.


(** ** The hand-off through the pipe *)

Lemma handoff_snoc tr e :
  handoff_before_return tr ->
  (forall p n, e = EvWriteRet p n None ->
               n = length p /\ reads_of tr = acked_of tr ++ p) ->
  handoff_before_return (tr ++ [e]).
Proof.
  intros H He pre p n post Heq.
  destruct post as [|x post _] using rev_ind.
  - apply app_inj_tail in Heq as [-> ->]. apply He; reflexivity.
  - change (pre ++ EvWriteRet p n None :: post ++ [x])
      with (pre ++ (EvWriteRet p n None :: post) ++ [x]) in Heq.
    rewrite app_assoc in Heq. apply app_inj_tail in Heq as [-> _].
    apply (H pre p n post); reflexivity.
Qed.

Section HandoffFacts.
Variable filepath_Join : string -> string -> string.
Variable rq : Request.

Lemma sync_inv_init fs script : sync_inv (upload rq fs script).
Proof.
  split; [|destruct script; simpl; auto].
  intros [|] ? ? ? ?; discriminate.
Qed.

Lemma sync_inv_step t s s' :
  sync_inv s -> step filepath_Join rq t s = Some s' -> sync_inv s'.
Proof.
  destruct s as [fs p [w rel e] wk cl tr].
  unfold sync_inv, step; simpl. intros [Hh Hi] Hs.
  destruct t.
  - assert (Hs' : step_caller (mkState fs p (mkBWC w rel e) wk cl tr) = Some s')
      by (destruct wk; auto; congruence).
    clear Hs. unfold step_caller in Hs'; simpl in Hs'.
    destruct cl as [[|q rest]|q rest|err| | |r]; simpl in Hs';
      try (simplify_eq; simpl; auto; fail);
      try (destruct (Close_Wait_ready _); simplify_eq; simpl; auto; fail).
    + destruct Hi as [Hd Hr].
      unfold pipe_write_begin in Hs'. destruct (werr p); simplify_eq; simpl.
      * split; [apply handoff_snoc; auto; intros; discriminate|].
        rewrite reads_of_app, acked_of_app; simpl. rewrite !app_nil_r. auto.
      * split; auto. exists []. rewrite app_nil_r; auto.
    + unfold pipe_write_wait in Hs'. destruct (data p) as [d|] eqn:Ed.
      * destruct (rerr p); simplify_eq; simpl.
        destruct Hi as (c & -> & Hr).
        split; [apply handoff_snoc; auto; intros; discriminate|].
        split; auto.
        rewrite reads_of_app, acked_of_app; simpl. rewrite !app_nil_r.
        rewrite length_app, Nat.add_sub, take_app_length. auto.
      * simplify_eq; simpl.
        split; [apply handoff_snoc; auto; intros ? ? [= <- <-]; auto|].
        split; auto.
        rewrite reads_of_app, acked_of_app; simpl. rewrite !app_nil_r.
        rewrite firstn_all. auto.
  - assert (Hs' : step_worker filepath_Join rq
                    (mkState fs p (mkBWC w rel e) wk cl tr) = Some s')
      by (destruct wk; auto; congruence).
    clear Hs. unfold step_worker, after_CopyN in Hs'; simpl in Hs'.
    destruct wk as [ | | |written N|written N buf|err|err k|err k| | | ];
      simpl in Hs'; try discriminate.
    4: { (* a Read *)
      destruct (N <=? 0); [case_match; simplify_eq; simpl; auto|].
      destruct (pipe_read _ p) as [|bs p'|e'] eqn:Er; [discriminate| |].
      2: { case_match; simplify_eq; simpl; auto. }
      apply pipe_read_ok in Er as (d & Ed & Err & -> & ->).
      rewrite Ed in Hi.
      assert (Hcl : exists q rest, cl = C67 q rest).
      { destruct cl; eauto; destruct Hi; discriminate. }
      destruct Hcl as (q & rest & ->). destruct Hi as (c & -> & Hr).
      simplify_eq; simpl.
      split; [apply handoff_snoc; auto; intros; discriminate|].
      rewrite reads_of_app, acked_of_app, Hr; simpl. rewrite !app_nil_r.
      set (cap := Z.to_nat _).
      pose proof (take_drop cap d) as Htd.
      destruct (drop cap d) as [|x l] eqn:Edrop.
      - rewrite app_nil_r in Htd. rewrite Htd, app_assoc. auto.
      - exists (c ++ take cap d). rewrite <- Htd at 1.
        rewrite !app_assoc. auto. }
    all: repeat match type of Hs' with
                | context [match ?x with _ => _ end] => destruct x eqn:?
                end; simplify_eq; simpl;
         rewrite ?reads_of_app, ?acked_of_app; simpl; rewrite ?app_nil_r;
         try (split; [try apply handoff_snoc; auto; intros; discriminate|]);
         try (destruct cl; auto; fail); auto.
Qed.

Lemma sync_inv_run sched fs script :
  sync_inv (run (step filepath_Join rq) sched (upload rq fs script)).
Proof.
  apply run_invariant; [|apply sync_inv_init].
  intros t s s' Hi Hs. apply (sync_inv_step t s s' Hi Hs).
Qed.

End HandoffFacts.

(** C9: the pipe hands bytes over synchronously.  In every execution of
    an upload, when a [Write(p)] on the handle has returned [(n, nil)],
    [n] is [len(p)], and the bytes that the goroutine had read from the
    read end before that return are the bytes that the earlier [Write]
    calls reported as written, followed by [p]. *)
Theorem write_returns_after_handoff (filepath_Join : string -> string -> string)
    (rq : Request) (fs : FS) (script : list (list byte)) (sched : list tid)
    (pre post : list event) (p : list byte) (n : nat) :
  st_trace (run (step filepath_Join rq) sched (upload rq fs script)) =
    pre ++ EvWriteRet p n None :: post ->
  n = length p /\ reads_of pre = acked_of pre ++ p.
Proof.
  intros Htr.
  destruct (sync_inv_run filepath_Join rq sched fs script) as [Hh _].
  apply (Hh pre p n post Htr).
Qed.

(** ** Uploads that nothing refuses *)

Section SuccessFacts.
Variable filepath_Join : string -> string -> string.
Variable rq : Request.
Variable all : list byte.
Hypothesis Hbucket : bucket rq <> ""%string.
Hypothesis Hobject : object rq <> ""%string.
Hypothesis Hsize : size rq = Z.of_nat (length all).

Lemma success_inv_init fs script :
  refused fs !! objectPath filepath_Join rq = None ->
  concat script = all ->
  success_inv filepath_Join rq all (upload rq fs script).
Proof. intros Hr Hc. repeat split; auto. Qed.

Lemma success_inv_step t s s' :
  latch_inv s -> success_inv filepath_Join rq all s ->
  step filepath_Join rq t s = Some s' ->
  success_inv filepath_Join rq all s'.
Proof.
  destruct s as [fs p [w rel e] wk cl tr].
  unfold latch_inv, success_inv, step, unread; simpl.
  intros [_ Hl] (-> & Href & Hc & Hw) Hs.
  destruct t.
  - assert (Hs' : step_caller (mkState fs p (mkBWC w rel None) wk cl tr) = Some s')
      by (destruct wk; auto; congruence).
    clear Hs. unfold step_caller in Hs'; simpl in Hs'.
    destruct cl as [[|q rest]|q rest|err| | |r]; simpl in Hs'.
    + simplify_eq; simpl. destruct Hc as [Hd Hwe]. repeat split; auto.
    + destruct Hc as [Hd Hwe]. unfold pipe_write_begin in Hs'.
      rewrite Hwe in Hs'. simplify_eq; simpl. repeat split; auto.
    + unfold pipe_write_wait in Hs'. destruct (data p) as [d|] eqn:Ed.
      * destruct (rerr p) as [e0|] eqn:Er; simplify_eq; simpl.
        repeat split; auto.
        destruct wk; simpl in *; try (destruct k); try contradiction;
          try (exfalso; intuition discriminate; fail).
        destruct Hw as [HF Hu]. split; auto.
        apply app_eq_nil in Hu as [_ Hu]. exact Hu.
      * simplify_eq; simpl. repeat split; auto.
    + simplify_eq; simpl. destruct Hc as (Hd & Hwe & ->). repeat split; auto.
    + unfold Close_Wait_ready in Hs'; simpl in Hs'.
      destruct (wg_Wait_ready rel); simplify_eq; simpl. repeat split; tauto.
    + simplify_eq; simpl. repeat split; tauto.
    + discriminate.
  - assert (Hs' : step_worker filepath_Join rq
                    (mkState fs p (mkBWC w rel None) wk cl tr) = Some s')
      by (destruct wk; auto; congruence).
    clear Hs. unfold step_worker in Hs'; simpl in Hs'.
    destruct wk as [ | | |written N|written N buf|err|err k|err k| | | ];
      simpl in Hs', Hw; try contradiction.
    + destruct (String.eqb_spec (bucket rq) ""); [contradiction|].
      destruct (String.eqb_spec (object rq) ""); [contradiction|].
      simpl in Hs'. simplify_eq; simpl. repeat split; tauto.
    + destruct (Z.ltb_spec (size rq) 0); [lia|].
      simplify_eq; simpl. repeat split; tauto.
    + unfold os_Create in Hs'. rewrite Href in Hs'. simpl in Hs'.
      simplify_eq; simpl. destruct Hw as [Hr Hu].
      split; auto. split; auto. split; auto. split; auto.
      exists []. rewrite lookup_insert_eq. repeat split; auto.
      rewrite <- Hu in Hsize. exact Hsize.
    + destruct Hw as (Hr & c & HF & Hall & HN & Hwr).
      destruct (Z.leb_spec N 0) as [HN0|HN0].
      * assert (Hu : match cl with
                     | CNext rest => concat rest
                     | C67 _ rest => default [] (data p) ++ concat rest
                     | _ => []
                     end = []) by (apply length_zero_iff_nil; lia).
        rewrite Hu, app_nil_r in Hall. subst c.
        unfold CopyN_result in Hs'. rewrite Hwr, Hsize, Z.eqb_refl in Hs'.
        simpl in Hs'. simplify_eq; simpl. rewrite Hu. repeat split; auto.
      * destruct (pipe_read _ p) as [|bs p'|e'] eqn:Er; [discriminate| |].
        -- apply pipe_read_ok in Er as (d & Ed & _ & -> & ->).
           rewrite Ed in *.
           destruct cl as [?|q rest|?| | |?]; simpl in *;
             try (destruct Hc; discriminate).
           set (cap := Z.to_nat _) in *.
           pose proof (take_drop cap d) as Htd.
           assert (Hu' : default [] (match drop cap d with
                                     | [] => None
                                     | d' => Some d'
                                     end) = drop cap d)
             by (destruct (drop cap d); auto).
           destruct (take cap d) as [|x bs] eqn:Et.
           ++ injection Hs' as <-; simpl. rewrite Hu'. simpl in Htd.
              rewrite Htd. repeat split; auto. exists c. repeat split; auto.
           ++ assert (Hd : d ++ concat rest =
                           (x :: bs) ++ drop cap d ++ concat rest)
                by (rewrite app_assoc, Htd; reflexivity).
              injection Hs' as <-; simpl. rewrite Hu'.
              repeat split; auto. exists c. split; auto.
              split; [rewrite <- Hall, Hd; reflexivity|]. split; auto.
              rewrite HN, Hd, length_app. simpl. lia.
        -- exfalso. apply pipe_read_err in Er as [[Hr' _]|(_ & Hd & Hwe)];
             [congruence|].
           rewrite Hd in *.
           destruct cl as [?|q rest|?| | |?]; simpl in *;
             try (destruct Hc; congruence); try congruence; lia.
    + destruct Hw as (Hr & c & HF & Hall & HN & Hwr).
      simplify_eq; simpl. repeat split; auto.
      exists (c ++ buf). rewrite lookup_alter_eq, HF; simpl.
      rewrite <- app_assoc, length_app. repeat split; auto. lia.
    + destruct k; [contradiction|]. destruct Hw as (-> & Hr & HF & Hu).
      destruct Hl as [-> _].
      unfold Release_Done, wg_Done, wg_Add in Hs'; simpl in Hs'.
      simplify_eq; simpl. repeat split; auto.
    + destruct k; [contradiction|]. destruct Hw as (-> & Hr & HF & Hu).
      simplify_eq; simpl. repeat split; auto.
    + destruct Hw as (Hr & HF & Hu). simplify_eq; simpl. repeat split; auto.
    + discriminate.
Qed.

End SuccessFacts.

Lemma not_inevitably {St} (stp : tid -> St -> option St) (P : St -> Prop) s sched :
  terminal stp (run stp sched s) -> ~ P (run stp sched s) -> ~ inevitably stp P s.
Proof. intros Ht Hn Hi. apply Hn. apply (inevitably_run stp P s Hi sched Ht). Qed.

(** Every execution of an upload that nothing refuses, of a request with
    proper names whose declared size is the number of bytes written, ends
    with [Close] returned [nil] and the bytes in the object file. *)
Lemma upload_succeeds (filepath_Join : string -> string -> string)
    (rq : Request) (fs : FS) (script : list (list byte)) :
  bucket rq <> ""%string -> object rq <> ""%string ->
  size rq = Z.of_nat (length (concat script)) ->
  refused fs !! objectPath filepath_Join rq = None ->
  inevitably (step filepath_Join rq)
    (fun s =>
       st_caller s = CRet None /\ st_worker s = WExit /\
       files (st_fs s) !! objectPath filepath_Join rq = Some (concat script))
    (upload rq fs script).
Proof.
  intros Hb Ho Hsize Href.
  apply (inevitably_strengthen _
           (fun s => latch_inv s /\
                     success_inv filepath_Join rq (concat script) s)
           (fun s => st_worker s = WExit /\ exists r, st_caller s = CRet r)).
  - intros t s s' [Hl Hs] Hstep. split.
    + apply (latch_inv_step filepath_Join rq t s s' Hl Hstep).
    + apply (success_inv_step filepath_Join rq (concat script) Hb Ho Hsize
               t s s' Hl Hs Hstep).
  - intros s [_ (_ & _ & Hc & Hw)] [Hwk [r Hcl]].
    rewrite Hcl in Hc. rewrite Hwk in Hw. simpl in Hw.
    destruct Hc as (_ & _ & ->). destruct Hw as [HF _]. auto.
  - split; [apply latch_inv_init|]. apply success_inv_init; auto.
  - apply upload_terminates.
Qed.


(** ** Requests that the goroutine rejects *)

Section RejectFacts.
Variable filepath_Join : string -> string -> string.
Variable rq : Request.
Hypothesis Hinvalid :
  bucket rq = ""%string \/ object rq = ""%string \/ size rq < 0.

Lemma reject_inv_step fs0 t s s' :
  latch_inv s -> reject_inv rq fs0 s ->
  step filepath_Join rq t s = Some s' ->
  reject_inv rq fs0 s'.
Proof.
  destruct s as [fs p [w rel e] wk cl tr].
  unfold latch_inv, reject_inv, step; simpl.
  intros [_ Hl] (-> & Hc & Hw) Hs.
  destruct t.
  - assert (Hs' : step_caller (mkState fs0 p (mkBWC w rel e) wk cl tr) = Some s')
      by (destruct wk; auto; congruence).
    clear Hs. unfold step_caller in Hs'; simpl in Hs'.
    assert (He : e = None \/ e = Some (IodineError InvalidArgument)).
    { destruct wk; try (destruct k); try contradiction; intuition. }
    destruct cl as [[|q rest]|q rest|err| | |r]; simpl in Hs';
      repeat match type of Hs' with
             | context [match ?x with _ => _ end] => destruct x eqn:?
             end; simplify_eq; simpl;
      rewrite ?signals_app; simpl; rewrite ?app_nil_r; auto.
  - assert (Hs' : step_worker filepath_Join rq
                    (mkState fs0 p (mkBWC w rel e) wk cl tr) = Some s')
      by (destruct wk; auto; congruence).
    clear Hs. unfold step_worker in Hs'; simpl in Hs'.
    destruct wk as [ | | |written N|written N buf|err|err k|err k| | | ];
      simpl in Hs', Hw; try contradiction; try (destruct k; [|contradiction]).
    + destruct Hw as [He Hsg].
      destruct (String.eqb_spec (bucket rq) "") as [Eb|Eb];
        [|destruct (String.eqb_spec (object rq) "") as [Eo|Eo]];
        simpl in Hs'; simplify_eq; simpl; auto.
      repeat split; auto. destruct Hinvalid as [?|[?|?]]; auto; contradiction.
    + destruct Hw as (He & Hsg & Hlt).
      destruct (Z.ltb_spec (size rq) 0); [|lia].
      simplify_eq; simpl; auto.
    + destruct Hw as (-> & He & Hsg). simplify_eq; simpl.
      rewrite signals_app, Hsg. auto.
    + destruct Hw as (-> & He & Hsg). destruct Hl as [-> _].
      unfold Release_Done, wg_Done, wg_Add in Hs'; simpl in Hs'.
      simplify_eq; simpl. rewrite signals_app, Hsg. auto.
    + destruct Hw as (-> & He & Hsg). simplify_eq; simpl. auto.
    + discriminate.
Qed.

(** Every execution of an upload with an empty name or a negative size
    ends with the file system as it was, the goroutine having closed the
    read end with [InvalidArgument] and called [Release] with it, and
    [Close] returned either that error or [nil]. *)
Lemma invalid_request_outcome fs script :
  inevitably (step filepath_Join rq)
    (fun s =>
       st_fs s = fs /\
       signals (st_trace s) = [EvRClose (Some (IodineError InvalidArgument));
                               EvRelease (Some (IodineError InvalidArgument))] /\
       bw_err (st_b s) = Some (IodineError InvalidArgument) /\
       exists r, st_caller s = CRet r /\
                 (r = None \/ r = Some (IodineError InvalidArgument)))
    (upload rq fs script).
Proof.
  apply (inevitably_strengthen _ (fun s => latch_inv s /\ reject_inv rq fs s)
           (fun s => st_worker s = WExit /\ exists r, st_caller s = CRet r)).
  - intros t s s' [Hl Hs] Hstep. split.
    + apply (latch_inv_step filepath_Join rq t s s' Hl Hstep).
    + apply (reject_inv_step fs t s s' Hl Hs Hstep).
  - intros s [_ (Hfs & Hc & Hw)] [Hwk [r Hcl]].
    rewrite Hcl in Hc. rewrite Hwk in Hw. destruct Hw as [He Hsg].
    repeat split; auto. exists r; auto.
  - split; [apply latch_inv_init|]. repeat split; auto.
  - apply upload_terminates.
Qed.

End RejectFacts.

(** ** Uploads of fewer bytes than declared *)

Section ShortFacts.
Variable filepath_Join : string -> string -> string.
Variable rq : Request.
Variable all : list byte.
Hypothesis Hbucket : bucket rq <> ""%string.
Hypothesis Hobject : object rq <> ""%string.
Hypothesis Hshort : Z.of_nat (length all) < size rq.

Lemma short_inv_init fs script :
  refused fs !! objectPath filepath_Join rq = None ->
  concat script = all ->
  short_inv filepath_Join rq all (upload rq fs script).
Proof. intros Hr Hc. repeat split; auto. Qed.

Lemma short_berr pc r F u berr sg :
  short_worker rq all pc r F u berr sg ->
  berr = None \/ berr = Some (IodineError EOF).
Proof.
  destruct pc; simpl; try (destruct k); try contradiction; intuition.
Qed.

Lemma short_inv_step t s s' :
  latch_inv s -> short_inv filepath_Join rq all s ->
  step filepath_Join rq t s = Some s' ->
  short_inv filepath_Join rq all s'.
Proof.
  destruct s as [fs p [w rel e] wk cl tr].
  unfold latch_inv, short_inv, step, unread; simpl.
  intros [_ Hl] (Href & Hc & Hw) Hs.
  destruct t.
  - assert (Hs' : step_caller (mkState fs p (mkBWC w rel e) wk cl tr) = Some s')
      by (destruct wk; auto; congruence).
    clear Hs. unfold step_caller in Hs'; simpl in Hs'.
    pose proof (short_berr _ _ _ _ _ _ Hw) as He.
    destruct cl as [[|q rest]|q rest|err| | |r]; simpl in Hs'.
    + simplify_eq; simpl. destruct Hc as [Hd Hwe]. repeat split; auto.
    + destruct Hc as [Hd Hwe]. unfold pipe_write_begin in Hs'.
      rewrite Hwe in Hs'. injection Hs' as <-; simpl. repeat split; auto.
    + unfold pipe_write_wait in Hs'. destruct (data p) as [d|] eqn:Ed.
      * destruct (rerr p) as [e0|] eqn:Er; [|discriminate].
        injection Hs' as <-; simpl. rewrite signals_app; simpl.
        rewrite app_nil_r. repeat split; auto.
        destruct wk; simpl in *; try (destruct k); try contradiction;
          try (exfalso; intuition discriminate; fail);
          repeat match goal with H : _ /\ _ |- _ => destruct H end;
          repeat split; auto;
          match goal with
          | H : _ ++ _ = [] |- _ => apply app_eq_nil in H as [_ H]; exact H
          end.
      * injection Hs' as <-; simpl. rewrite signals_app; simpl.
        rewrite app_nil_r. repeat split; auto.
    + injection Hs' as <-; simpl. destruct Hc as (Hd & Hwe & ->).
      repeat split; auto.
    + unfold Close_Wait_ready in Hs'; simpl in Hs'.
      destruct (wg_Wait_ready rel); [|discriminate].
      injection Hs' as <-; simpl. repeat split; tauto.
    + injection Hs' as <-; simpl. repeat split; tauto.
    + discriminate.
  - assert (Hs' : step_worker filepath_Join rq
                    (mkState fs p (mkBWC w rel e) wk cl tr) = Some s')
      by (destruct wk; auto; congruence).
    clear Hs. unfold step_worker in Hs'; simpl in Hs'.
    destruct wk as [ | | |written N|written N buf|err|err k|err k| | | ];
      simpl in Hs', Hw; try contradiction;
      try (destruct k; [|contradiction]).
    + destruct (String.eqb_spec (bucket rq) ""); [contradiction|].
      destruct (String.eqb_spec (object rq) ""); [contradiction|].
      simpl in Hs'. injection Hs' as <-; simpl. repeat split; tauto.
    + destruct (Z.ltb_spec (size rq) 0); [lia|].
      injection Hs' as <-; simpl. repeat split; tauto.
    + unfold os_Create in Hs'. rewrite Href in Hs'. simpl in Hs'.
      injection Hs' as <-; simpl. destruct Hw as (Hr & Hu & He & Hsg).
      repeat split; auto.
      exists []. rewrite lookup_insert_eq. repeat split; auto. simpl. lia.
    + destruct Hw as (Hr & He & Hsg & c & HF & Hall & HN & Hwr).
      assert (Hlen : (length c <= length all)%nat)
        by (rewrite <- Hall, length_app; lia).
      destruct (Z.leb_spec N 0) as [HN0|HN0]; [lia|].
      destruct (pipe_read _ p) as [|bs p'|e'] eqn:Er; [discriminate| |].
      * apply pipe_read_ok in Er as (d & Ed & _ & -> & ->).
        rewrite Ed in *.
        destruct cl as [?|q rest|?| | |?]; simpl in *;
          try (destruct Hc; discriminate).
        set (cap := Z.to_nat _) in *.
        pose proof (take_drop cap d) as Htd.
        assert (Hu' : default [] (match drop cap d with
                                  | [] => None
                                  | d' => Some d'
                                  end) = drop cap d)
          by (destruct (drop cap d); auto).
        destruct (take cap d) as [|x bs] eqn:Et.
        -- injection Hs' as <-; simpl. rewrite Hu'. simpl in Htd.
           rewrite Htd, signals_app, Hsg. repeat split; auto.
           exists c. repeat split; auto.
        -- assert (Hd : d ++ concat rest =
                        (x :: bs) ++ drop cap d ++ concat rest)
             by (rewrite app_assoc, Htd; reflexivity).
           injection Hs' as <-; simpl. rewrite Hu', signals_app, Hsg.
           repeat split; auto. exists c. split; auto.
           split; [rewrite <- Hall, Hd; reflexivity|]. split; auto.
           simpl. lia.
      * apply pipe_read_err in Er as [[Hr' _]|(_ & Hd & Hwe)];
          [congruence|].
        rewrite Hd in *.
        destruct cl as [?|q rest|?| | |?]; simpl in *;
          try (exfalso; intuition congruence; fail);
          rewrite app_nil_r in Hall; subst c;
          (assert (e' = EOF) as -> by intuition congruence);
          unfold CopyN_result in Hs'; simpl in Hs';
          (destruct (Z.eqb_spec written (size rq)); [lia|]);
          (destruct (Z.ltb_spec written (size rq)); [|lia]);
          simpl in Hs'; injection Hs' as <-; simpl; repeat split; tauto.
    + destruct Hw as (Hr & He & Hsg & c & HF & Hall & HN & Hwr).
      injection Hs' as <-; simpl. repeat split; auto.
      exists (c ++ buf). rewrite lookup_alter_eq, HF; simpl.
      rewrite <- app_assoc, length_app. repeat split; auto; lia.
    + destruct Hw as (-> & Hr & He & Hsg & HF & Hu).
      injection Hs' as <-; simpl. rewrite signals_app, Hsg.
      repeat split; auto.
    + destruct Hw as (-> & He & Hsg & HF & Hu). destruct Hl as [-> _].
      unfold Release_Done, wg_Done, wg_Add in Hs'; simpl in Hs'.
      injection Hs' as <-; simpl. rewrite signals_app, Hsg.
      repeat split; auto.
    + destruct Hw as (-> & He & Hsg & HF & Hu).
      injection Hs' as <-; simpl. repeat split; auto.
    + discriminate.
Qed.

End ShortFacts.

(** Every execution of an upload of fewer bytes than declared, that
    nothing refuses, ends with the bytes written in the object file, the
    goroutine having closed the read end with the wrapped [io.EOF] of
    [io.CopyN] and called [Release] with it, and [Close] returned either
    that error or [nil]. *)
Lemma short_upload_outcome (filepath_Join : string -> string -> string)
    (rq : Request) (fs : FS) (script : list (list byte)) :
  bucket rq <> ""%string -> object rq <> ""%string ->
  Z.of_nat (length (concat script)) < size rq ->
  refused fs !! objectPath filepath_Join rq = None ->
  inevitably (step filepath_Join rq)
    (fun s =>
       files (st_fs s) !! objectPath filepath_Join rq = Some (concat script) /\
       signals (st_trace s) = [EvRClose (Some (IodineError EOF));
                               EvRelease (Some (IodineError EOF))] /\
       bw_err (st_b s) = Some (IodineError EOF) /\
       exists r, st_caller s = CRet r /\
                 (r = None \/ r = Some (IodineError EOF)))
    (upload rq fs script).
Proof.
  intros Hb Ho Hshort Href.
  apply (inevitably_strengthen _
           (fun s => latch_inv s /\
                     short_inv filepath_Join rq (concat script) s)
           (fun s => st_worker s = WExit /\ exists r, st_caller s = CRet r)).
  - intros t s s' [Hl Hs] Hstep. split.
    + apply (latch_inv_step filepath_Join rq t s s' Hl Hstep).
    + apply (short_inv_step filepath_Join rq (concat script) Hb Ho Hshort
               t s s' Hl Hs Hstep).
  - intros s [_ (_ & Hc & Hw)] [Hwk [r Hcl]].
    rewrite Hcl in Hc. rewrite Hwk in Hw. simpl in Hw.
    destruct Hc as (_ & _ & Hr). destruct Hw as (He & Hsg & HF & _).
    repeat split; auto. exists r; auto.
  - split; [apply latch_inv_init|]. apply short_inv_init; auto.
  - apply upload_terminates.
Qed.




(** C10 (amended): for non-empty names, size 0, a destination that does
    not exist, and a file system that does not refuse to create it, every
    execution of [Put] and [Close] without a [Write] ends with [Close]
    returned [nil] and an empty file at [join(bucket, object)]; and the
    goroutine runs to its return on its own, reading nothing from the
    pipe, before the caller has done anything. *)
Theorem Put_of_size_zero_needs_no_write
    (filepath_Join : string -> string -> string)
    (bucket object md5HexString : string) (fs : FS) :
  let rq := mkRequest bucket object md5HexString 0 in
  let path := filepath_Join bucket object in
  bucket <> ""%string -> object <> ""%string ->
  files fs !! path = None ->
  refused fs !! path = None ->
  inevitably (step filepath_Join rq)
    (fun s => st_caller s = CRet None /\ files (st_fs s) !! path = Some [])
    (upload rq fs []) /\
  let s := run (step filepath_Join rq) (repeat Worker 7) (upload rq fs []) in
  st_worker s = WExit /\ st_caller s = CNext [] /\
  reads_of (st_trace s) = [] /\ files (st_fs s) !! path = Some [].
Proof.
  intros rq path Hb Ho Hfresh Href. split.
  - apply (inevitably_strengthen _ (fun _ => True)
             (fun s => st_caller s = CRet None /\ st_worker s = WExit /\
                       files (st_fs s) !! path = Some (concat []))).
    + auto.
    + intros s _ (Hc & _ & HF). auto.
    + exact I.
    + apply (upload_succeeds filepath_Join rq fs []); auto.
  - apply String.eqb_neq in Hb, Ho.
    unfold upload, Put; cbn [fst repeat sp_pipe sp_handle sp_worker].
    erewrite run_cons;
      [|unfold step, step_worker; simpl; rewrite Hb, Ho; reflexivity].
    erewrite run_cons; [|reflexivity].
    erewrite run_cons;
      [|unfold step, step_worker, os_Create, objectPath; simpl;
        fold path; rewrite Href; reflexivity].
    do 4 (erewrite run_cons; [|reflexivity]).
    simpl. repeat split. apply lookup_insert_eq.
Qed.

Lemma Put_of_size_zero_needs_no_write_witness :
  let rq := mkRequest "b" "o.txt" "" 0 in
  files fs_empty_bucket !! "b/o.txt"%string = None /\
  refused fs_empty_bucket !! "b/o.txt"%string = None /\
  st_worker (run (step slash_join rq) (repeat Worker 7)
                 (upload rq fs_empty_bucket [])) = WExit.
Proof.
  split; [reflexivity|]. split; [reflexivity|].
  apply (proj2 (Put_of_size_zero_needs_no_write slash_join "b" "o.txt" ""
                  fs_empty_bucket ltac:(discriminate) ltac:(discriminate)
                  eq_refl eq_refl)).
Defined.

(** C10 as stated fails when the bucket directory is missing: the names
    are non-empty, the size is 0, no file [b/o.txt] exists, and [Close]
    without a [Write] returns the wrapped error of [os.Create]; no file is
    created. *)
Lemma Put_of_size_zero_counterexample :
  let rq := mkRequest "b" "o.txt" "" 0 in
  let sched := [Caller; Caller; Worker; Worker; Worker; Worker; Worker; Worker;
                Caller; Caller] in
  let s := run (step slash_join rq) sched (upload rq fs_without_bucket []) in
  files fs_without_bucket !! "b/o.txt"%string = None /\
  terminal (step slash_join rq) s /\
  st_caller s = CRet (Some (IodineError (PathError "b/o.txt" ENOENT))) /\
  files (st_fs s) !! "b/o.txt"%string = None.
Proof.
  intros rq sched s.
  split; [reflexivity|]. split; [intros []; reflexivity|].
  split; reflexivity.
Qed.

(** C6, the code at a request whose object file exists: [os.Create]
    truncates the file, so in every execution [Close] returns [nil] and
    the old contents are replaced by the bytes written. *)
Theorem Put_overwrites_existing_object :
  let rq := mkRequest "b" "o.txt" "" 5 in
  files fs_with_object !! "b/o.txt"%string = Some (list_byte_of_string "old") /\
  inevitably (step slash_join rq)
    (fun s => st_caller s = CRet None /\
              files (st_fs s) !! "b/o.txt"%string = Some hello)
    (upload rq fs_with_object [hello]).
Proof.
  intros rq. split; [reflexivity|].
  apply (inevitably_strengthen _ (fun _ => True)
           (fun s => st_caller s = CRet None /\ st_worker s = WExit /\
                     files (st_fs s) !! objectPath slash_join rq =
                       Some (concat [hello]))).
  - auto.
  - intros s _ (Hc & _ & HF). auto.
  - exact I.
  - apply (upload_succeeds slash_join rq fs_with_object [hello]);
      [discriminate|discriminate|reflexivity|reflexivity].
Qed.

(** C5, the code at a request with an empty bucket name, when [Close]
    runs between the two statements of [Release]: the goroutine closes
    the read end and calls [Release] with [InvalidArgument], the file
    system is as before, and [Close] has returned [nil]. *)
Theorem Close_of_invalid_request_can_return_nil :
  let rq := mkRequest "" "o.txt" "" 5 in
  let sched := [Worker; Worker; Worker;
                Caller; Caller; Caller; Caller; Worker] in
  let s := run (step slash_join rq) sched (upload rq fs_empty_bucket []) in
  terminal (step slash_join rq) s /\
  signals (st_trace s) = [EvRClose (Some (IodineError InvalidArgument));
                          EvRelease (Some (IodineError InvalidArgument))] /\
  bw_err (st_b s) = Some (IodineError InvalidArgument) /\
  st_fs s = fs_empty_bucket /\
  st_caller s = CRet None.
Proof.
  intros rq sched s. split; [intros []; reflexivity|]. repeat split.
Qed.

(** C7, the code at a request of 5 bytes whose caller writes 2 bytes and
    closes, when [Close] runs between the two statements of [Release]:
    [io.CopyN] fails with [io.EOF], the goroutine calls [Release] with the
    wrapped error, and [Close] has returned [nil]; the 2 bytes are in the
    object file. *)
Theorem Close_of_short_upload_can_return_nil :
  let rq := mkRequest "b" "o.txt" "" 5 in
  let hi := list_byte_of_string "hi" in
  let sched := [Caller; Worker; Worker; Worker; Worker; Worker;
                Caller; Caller; Caller; Worker; Worker; Worker;
                Caller; Caller; Worker] in
  let s := run (step slash_join rq) sched (upload rq fs_empty_bucket [hi]) in
  terminal (step slash_join rq) s /\
  st_trace s = [EvRead hi; EvWriteRet hi 2 None;
                EvRClose (Some (IodineError EOF));
                EvRelease (Some (IodineError EOF))] /\
  bw_err (st_b s) = Some (IodineError EOF) /\
  files (st_fs s) !! "b/o.txt"%string = Some hi /\
  st_caller s = CRet None.
Proof.
  intros rq hi sched s. split; [intros []; reflexivity|]. repeat split.
Qed.


Lemma write_returns_after_handoff_witness :
  let rq := mkRequest "b" "o.txt" "" 5 in
  let sched := repeat Worker 10 ++ repeat Caller 10 ++
               repeat Worker 10 ++ repeat Caller 10 in
  st_trace (run (step slash_join rq) sched (upload rq fs_empty_bucket [hello])) =
    [EvRead hello; EvRelease None; EvRClose None] ++
    EvWriteRet hello 5 None :: [] /\
  reads_of [EvRead hello; EvRelease None; EvRClose None] =
    acked_of [EvRead hello; EvRelease None; EvRClose None] ++ hello.
Proof.
  split; [reflexivity|].
  apply (write_returns_after_handoff slash_join (mkRequest "b" "o.txt" "" 5)
           fs_empty_bucket [hello]
           (repeat Worker 10 ++ repeat Caller 10 ++
            repeat Worker 10 ++ repeat Caller 10)
           [EvRead hello; EvRelease None; EvRClose None] [] hello 5).
  reflexivity.
Defined.

(** ** The caption of the progress bar *)

Lemma pow_63_62 : 2 ^ 63 = 2 * 2 ^ 62 /\ 2 ^ 64 = 2 * 2 ^ 63 /\ 0 < 2 ^ 62.
Proof. repeat split. Qed.

Ltac int_lia :=
  pose proof pow_63_62; unfold is_int in *; simpl length in *; lia.

Lemma wrap_int_id z : is_int z -> wrap_int z = z.
Proof. unfold is_int, wrap_int. intros H. rewrite Z.mod_small; lia. Qed.

Lemma wrap_int_over z : 2 ^ 63 <= z < 2 ^ 64 -> wrap_int z = z - 2 ^ 64.
Proof.
  unfold wrap_int. intros H.
  replace (z + 2 ^ 63) with (z - 2 ^ 63 + 1 * 2 ^ 64) by lia.
  rewrite Z_mod_plus_full, Z.mod_small; lia.
Qed.

Lemma length_dots : length (list_byte_of_string "...") = 3%nat.
Proof. reflexivity. Qed.

(** What [fixateBarCaption] computes when its arithmetic does not wrap
    around. *)
Lemma fixateBarCaption_no_wrap (caption : list byte) (width : Z) :
  let len := Z.of_nat (length caption) in
  is_int width -> len - width + 3 < 2 ^ 63 -> len < 2 ^ 63 ->
  fixateBarCaption caption width =
    Ok (if width <? len then
          if 3 <? width
          then list_byte_of_string "..." ++
               drop (Z.to_nat (len - width + 3)) caption
          else caption
        else caption ++ replicate (Z.to_nat (width - len)) " "%byte).
Proof.
  intros len Hw Hov Hlen. unfold fixateBarCaption, is_int in *. fold len.
  destruct (Z.ltb_spec width len) as [H1|H1].
  - rewrite (wrap_int_id (len - width)) by (unfold is_int; lia).
    rewrite (wrap_int_id (len - width + 3)) by (unfold is_int; lia).
    destruct (Z.ltb_spec (len - width + 3) len) as [H2|H2];
      destruct (Z.ltb_spec 3 width) as [H3|H3]; try lia; auto.
    destruct (Z.ltb_spec (len - width + 3) 0); [lia|reflexivity].
  - destruct (Z.ltb_spec len width) as [H2|H2].
    + rewrite wrap_int_id by (unfold is_int; lia). reflexivity.
    + replace (width - len) with 0 by lia. simpl. rewrite app_nil_r. reflexivity.
Qed.

Lemma fixate_width_lemma (caption : list byte) (width : Z) :
  0 <= width < 2 ^ 63 -> Z.of_nat (length caption) < 2 ^ 63 ->
  3 < width \/ Z.of_nat (length caption) <= width ->
  exists c, fixateBarCaption caption width = Ok c /\
            Z.of_nat (length c) = width.
Proof.
  intros Hw Hlen Hfit.
  rewrite fixateBarCaption_no_wrap by int_lia.
  eexists; split; [reflexivity|].
  destruct (Z.ltb_spec width (Z.of_nat (length caption))) as [H1|H1].
  - destruct (Z.ltb_spec 3 width) as [H3|H3]; [|lia].
    rewrite length_app, length_dots, length_drop. lia.
  - rewrite length_app, length_replicate. lia.
Qed.





(** X10: a caption longer than a width of 3 or less (negative widths
    included, as long as the subtraction does not overflow) is returned
    as it is: it is not cut, and stays longer than the width. *)
Theorem fixateBarCaption_narrow_unchanged (caption : list byte) (width : Z) :
  is_int width -> width <= 3 ->
  Z.of_nat (length caption) - width + 3 < 2 ^ 63 ->
  width < Z.of_nat (length caption) ->
  fixateBarCaption caption width = Ok caption.
Proof.
  intros Hw H3 Hov Hlong.
  rewrite fixateBarCaption_no_wrap by int_lia.
  destruct (Z.ltb_spec width (Z.of_nat (length caption))); [|lia].
  destruct (Z.ltb_spec 3 width); [lia|reflexivity].
Qed.

Lemma fixateBarCaption_narrow_unchanged_witness :
  fixateBarCaption (list_byte_of_string "object.txt") 3 =
    Ok (list_byte_of_string "object.txt").
Proof.
  apply (fixateBarCaption_narrow_unchanged (list_byte_of_string "object.txt") 3);
    [int_lia|int_lia|int_lia|int_lia].
Defined.

(** X11: [fixateBarCaption] panics exactly when [len(caption) - width + 3]
    overflows the [int] range (captions of less than 2^62 bytes); in
    particular it never panics for a width that is not negative. *)
Theorem fixateBarCaption_panics_on_overflow (caption : list byte) (width : Z) :
  is_int width -> Z.of_nat (length caption) < 2 ^ 62 ->
  (fixateBarCaption caption width = Panic <->
   2 ^ 63 <= Z.of_nat (length caption) - width + 3).
Proof.
  intros Hw Hlen. unfold is_int in Hw.
  destruct (Z.lt_ge_cases (Z.of_nat (length caption) - width + 3) (2 ^ 63))
    as [Hok|Hov].
  - rewrite fixateBarCaption_no_wrap by int_lia.
    split; [discriminate|lia].
  - split; [auto|]. intros _. unfold fixateBarCaption.
    set (len := Z.of_nat (length caption)) in *.
    destruct (Z.ltb_spec width len) as [H1|H1]; [|lia].
    assert (Ht : wrap_int (wrap_int (len - width) + 3) < 0).
    { destruct (Z.lt_ge_cases (len - width) (2 ^ 63)) as [Ha|Ha].
      - rewrite (wrap_int_id (len - width)) by int_lia.
        rewrite wrap_int_over by lia. lia.
      - rewrite (wrap_int_over (len - width)) by lia.
        rewrite wrap_int_id by int_lia. lia. }
    destruct (Z.ltb_spec (wrap_int (wrap_int (len - width) + 3)) len); [|lia].
    destruct (Z.ltb_spec (wrap_int (wrap_int (len - width) + 3)) 0); [|lia].
    reflexivity.
Qed.

Lemma fixateBarCaption_panics_on_overflow_witness :
  fixateBarCaption (list_byte_of_string "a") (- 2 ^ 63) = Panic.
Proof.
  apply (fixateBarCaption_panics_on_overflow (list_byte_of_string "a") (- 2 ^ 63));
    [int_lia|int_lia|int_lia].
Defined.

(** X12: [fixateBarCaption] is idempotent: fixing a fixed caption to the
    same width changes nothing. *)
Theorem fixateBarCaption_idempotent (caption c : list byte) (width : Z) :
  is_int width -> Z.of_nat (length caption) < 2 ^ 62 ->
  fixateBarCaption caption width = Ok c ->
  fixateBarCaption c width = Ok c.
Proof.
  intros Hw Hlen Hc.
  destruct (Z.lt_ge_cases (Z.of_nat (length caption) - width + 3) (2 ^ 63))
    as [Hok|Hov].
  2: { apply (fixateBarCaption_panics_on_overflow caption width Hw Hlen) in Hov.
       congruence. }
  unfold is_int in Hw.
  rewrite fixateBarCaption_no_wrap in Hc by int_lia.
  injection Hc as <-.
  destruct (Z.ltb_spec width (Z.of_nat (length caption))) as [H1|H1].
  - destruct (Z.ltb_spec 3 width) as [H3|H3].
    + match goal with |- fixateBarCaption ?x _ = _ => set (c := x) end.
      assert (Hl : Z.of_nat (length c) = width)
        by (unfold c; simpl length; rewrite length_drop; lia).
      rewrite fixateBarCaption_no_wrap by int_lia.
      rewrite Hl, Z.ltb_irrefl, Z.sub_diag. simpl. rewrite app_nil_r. reflexivity.
    + rewrite fixateBarCaption_no_wrap by int_lia.
      destruct (Z.ltb_spec width (Z.of_nat (length caption))); [|lia].
      destruct (Z.ltb_spec 3 width); [lia|reflexivity].
  - match goal with |- fixateBarCaption ?x _ = _ => set (c := x) end.
    assert (Hl : Z.of_nat (length c) = width)
      by (unfold c; rewrite length_app, length_replicate; lia).
    rewrite fixateBarCaption_no_wrap by int_lia.
    rewrite Hl, Z.ltb_irrefl, Z.sub_diag. simpl. rewrite app_nil_r. reflexivity.
Qed.

Lemma fixateBarCaption_idempotent_witness :
  fixateBarCaption (list_byte_of_string "bucket/object.txt") 8 =
    Ok (list_byte_of_string "...t.txt") /\
  fixateBarCaption (list_byte_of_string "...t.txt") 8 =
    Ok (list_byte_of_string "...t.txt").
Proof.
  split; [reflexivity|].
  apply (fixateBarCaption_idempotent
           (list_byte_of_string "bucket/object.txt")
           (list_byte_of_string "...t.txt") 8);
    [int_lia|int_lia|reflexivity].
Defined.

(** X13: for a width that is not negative and a percentage between 0 and
    100 whose product fits an [int], [getFixedWidth] is the rounded-down
    share of the width: it lies between 0 and the width. *)
Theorem getFixedWidth_share (width percent : Z) :
  0 <= width -> 0 <= percent <= 100 -> width * percent < 2 ^ 63 ->
  let r := getFixedWidth width percent in
  0 <= r <= width /\ 100 * r <= width * percent < 100 * (r + 1).
Proof.
  intros Hw Hp Hov r. unfold r, getFixedWidth.
  rewrite wrap_int_id by (unfold is_int; nia).
  rewrite Z.quot_div_nonneg by nia.
  pose proof (Z.div_mod (width * percent) 100 ltac:(lia)) as Hdm.
  pose proof (Z.mod_pos_bound (width * percent) 100 ltac:(lia)) as Hm.
  nia.
Qed.

Lemma getFixedWidth_share_witness :
  getFixedWidth 80 18 = 14 /\ 0 <= getFixedWidth 80 18 <= 80.
Proof.
  split; [reflexivity|].
  apply (getFixedWidth_share 80 18); lia.
Defined.



(** ** Every call returns *)

Lemma writes_returned_app tr1 tr2 :
  writes_returned (tr1 ++ tr2) = (writes_returned tr1 + writes_returned tr2)%nat.
Proof. induction tr1 as [|[] tr1 IH]; simpl; auto. Qed.

Lemma writes_count_step filepath_Join rq (n : nat) t s s' :
  (writes_returned (st_trace s) + writes_pending (st_caller s))%nat = n ->
  step filepath_Join rq t s = Some s' ->
  (writes_returned (st_trace s') + writes_pending (st_caller s'))%nat = n.
Proof.
  destruct s as [fs p b wk cl tr]. unfold step; simpl. intros Hn Hs.
  destruct t.
  - assert (Hs' : step_caller (mkState fs p b wk cl tr) = Some s')
      by (destruct wk; auto; congruence).
    clear Hs. unfold step_caller in Hs'; simpl in Hs'.
    destruct cl as [[|q rest]|q rest|err| | |r]; simpl in *;
      repeat match type of Hs' with
             | context [match ?x with _ => _ end] => destruct x eqn:?
             end; simplify_eq; simpl;
      rewrite ?writes_returned_app; simpl; lia.
  - assert (Hs' : step_worker filepath_Join rq (mkState fs p b wk cl tr) = Some s')
      by (destruct wk; auto; congruence).
    clear Hs. unfold step_worker, after_CopyN in Hs'; simpl in Hs'.
    destruct wk; simpl in *;
      repeat match type of Hs' with
             | context [match ?x with _ => _ end] => destruct x eqn:?
             end; simplify_eq; simpl;
      rewrite ?writes_returned_app; simpl; lia.
Qed.

(** X1: whatever the request, the file system and the [Write] calls of
    the caller, every execution is finite and ends with the goroutine
    returned, every [Write] call returned, [Close] returned, and the
    counter of the wait group at zero: no call on the handle blocks for
    ever. *)
Theorem Close_always_returns (filepath_Join : string -> string -> string)
    (rq : Request) (fs : FS) (script : list (list byte)) :
  inevitably (step filepath_Join rq)
    (fun s =>
       st_worker s = WExit /\ (exists r, st_caller s = CRet r) /\
       writes_returned (st_trace s) = length script /\
       bw_release (st_b s) = 0)
    (upload rq fs script).
Proof.
  apply (inevitably_strengthen _
           (fun s => latch_inv s /\
                     (writes_returned (st_trace s) +
                      writes_pending (st_caller s))%nat = length script)
           (fun s => st_worker s = WExit /\ exists r, st_caller s = CRet r)).
  - intros t s s' [Hl Hn] Hstep. split.
    + apply (latch_inv_step filepath_Join rq t s s' Hl Hstep).
    + apply (writes_count_step filepath_Join rq _ t s s' Hn Hstep).
  - intros s [[_ Hl] Hn] [Hw [r Hc]]. rewrite Hw in Hl. rewrite Hc in Hn.
    simpl in Hn. repeat split; eauto; [lia|tauto].
  - split; [apply latch_inv_init|reflexivity].
  - apply upload_terminates.
Qed.

(** ** Uploads that give up before the copy *)

Lemma writes_failed_with_snoc err tr ev :
  writes_failed_with err tr ->
  match ev with
  | EvWriteRet _ n e => n = 0%nat /\ e = Some err
  | _ => True
  end ->
  writes_failed_with err (tr ++ [ev]).
Proof.
  intros H He. apply Forall_app. split; auto.
Qed.

Section EarlyFacts.
Variable filepath_Join : string -> string -> string.
Variable rq : Request.
Variable fs0 : FS.
Variable rej : error.
Hypothesis Hearly : early_failure filepath_Join rq fs0 = Some rej.

Lemma early_inv_init script :
  early_inv rq rej fs0 (upload rq fs0 script).
Proof.
  repeat split; auto; try constructor.
Qed.

Lemma early_inv_step t s s' :
  latch_inv s -> early_inv rq rej fs0 s ->
  step filepath_Join rq t s = Some s' ->
  early_inv rq rej fs0 s'.
Proof.
  destruct s as [fs p [w rel e] wk cl tr].
  unfold latch_inv, early_inv, step; simpl.
  intros [_ Hl] (-> & Hrd & Hwf & Hc & Hw) Hs.
  destruct t.
  - assert (Hs' : step_caller (mkState fs0 p (mkBWC w rel e) wk cl tr) = Some s')
      by (destruct wk; auto; congruence).
    clear Hs. unfold step_caller in Hs'; simpl in Hs'.
    assert (He : e = None \/ e = Some rej).
    { destruct wk; try (destruct k); try contradiction; intuition. }
    assert (Hr : rerr p = None \/ rerr p = Some rej).
    { destruct wk; try (destruct k); try contradiction; intuition. }
    destruct cl as [[|q rest]|q rest|err| | |r]; simpl in Hs'.
    + injection Hs' as <-; simpl. destruct Hc as [Hd Hwe]. repeat split; auto.
    + destruct Hc as [Hd Hwe]. unfold pipe_write_begin in Hs'.
      rewrite Hwe in Hs'. injection Hs' as <-; simpl. repeat split; auto.
    + destruct Hc as [Hd Hwe]. unfold pipe_write_wait in Hs'.
      rewrite Hd in Hs'. destruct (rerr p) as [e0|] eqn:Er; [|discriminate].
      injection Hs' as <-; simpl.
      assert (e0 = rej) as -> by (destruct Hr; congruence).
      rewrite reads_of_app, signals_app; simpl. rewrite !app_nil_r.
      rewrite Nat.sub_diag.
      repeat split; auto. apply writes_failed_with_snoc; auto.
    + injection Hs' as <-; simpl. destruct Hc as (Hd & ->). repeat split; auto.
    + unfold Close_Wait_ready in Hs'; simpl in Hs'.
      destruct (wg_Wait_ready rel); [|discriminate].
      injection Hs' as <-; simpl. repeat split; auto.
    + injection Hs' as <-; simpl. repeat split; auto.
    + discriminate.
  - assert (Hs' : step_worker filepath_Join rq
                    (mkState fs0 p (mkBWC w rel e) wk cl tr) = Some s')
      by (destruct wk; auto; congruence).
    clear Hs. unfold step_worker in Hs'; simpl in Hs'.
    unfold early_failure in Hearly.
    destruct wk as [ | | |written N|written N buf|err|err k|err k| | | ];
      simpl in Hs', Hw; try contradiction;
      try (destruct k; [|contradiction]).
    + destruct Hw as (He & Hsg & Hr).
      destruct (_ || _) eqn:En; injection Hs' as <-; simpl.
      * injection Hearly as <-. repeat split; auto.
      * repeat split; auto.
    + destruct Hw as (He & Hsg & Hr & En). rewrite En in Hearly.
      destruct (size rq <? 0) eqn:Es; injection Hs' as <-; simpl.
      * injection Hearly as <-. repeat split; auto.
      * repeat split; auto.
    + destruct Hw as (He & Hsg & Hr & En & Es). rewrite En, Es in Hearly.
      unfold os_Create in Hs'.
      destruct (refused fs0 !! objectPath filepath_Join rq) as [eno|] eqn:Ef;
        [|discriminate].
      destruct eno; simpl in Hs'; injection Hs' as <-; simpl;
        injection Hearly as <-; repeat split; auto.
    + destruct Hw as (-> & He & Hsg & Hr). injection Hs' as <-; simpl.
      rewrite reads_of_app, signals_app, Hsg; simpl. rewrite app_nil_r.
      split; auto. split; auto.
      split; [apply writes_failed_with_snoc; auto|]. split; auto.
    + destruct Hw as (-> & He & Hsg & Hr). destruct Hl as [-> _].
      unfold Release_Done, wg_Done, wg_Add in Hs'; simpl in Hs'.
      injection Hs' as <-; simpl.
      rewrite reads_of_app, signals_app, Hsg; simpl. rewrite app_nil_r.
      split; auto. split; auto.
      split; [apply writes_failed_with_snoc; auto|]. split; auto.
    + destruct Hw as (-> & He & Hsg & Hr). injection Hs' as <-; simpl.
      repeat split; auto.
    + discriminate.
Qed.

End EarlyFacts.

(** X2: when the goroutine gives up before the copy (an empty name, a
    negative size, or a file system that refuses to create the object
    file), every execution leaves the file system as it was; nothing is
    read from the pipe; every [Write] call returns 0 and the error,
    wrapped; the goroutine closes the read end with the error and calls
    [Release] with it; and [Close] returns the error or [nil]. *)
Theorem early_failure_outcome (filepath_Join : string -> string -> string)
    (rq : Request) (fs : FS) (script : list (list byte)) (rej : error) :
  early_failure filepath_Join rq fs = Some rej ->
  inevitably (step filepath_Join rq)
    (fun s =>
       st_fs s = fs /\
       reads_of (st_trace s) = [] /\
       writes_failed_with (IodineError rej) (st_trace s) /\
       signals (st_trace s) = [EvRClose (Some rej); EvRelease (Some rej)] /\
       bw_err (st_b s) = Some rej /\
       exists r, st_caller s = CRet r /\ (r = None \/ r = Some rej))
    (upload rq fs script).
Proof.
  intros Hearly.
  apply (inevitably_strengthen _
           (fun s => latch_inv s /\ early_inv rq rej fs s)
           (fun s => st_worker s = WExit /\ exists r, st_caller s = CRet r)).
  - intros t s s' [Hl Hs] Hstep. split.
    + apply (latch_inv_step filepath_Join rq t s s' Hl Hstep).
    + apply (early_inv_step filepath_Join rq fs rej Hearly t s s' Hl Hs Hstep).
  - intros s [_ (Hfs & Hrd & Hwf & Hc & Hw)] [Hwk [r Hcl]].
    rewrite Hcl in Hc. rewrite Hwk in Hw. destruct Hw as (He & Hsg & _).
    repeat split; auto. exists r. tauto.
  - split; [apply latch_inv_init|apply early_inv_init].
  - apply upload_terminates.
Qed.

Lemma early_failure_outcome_witness :
  let rq := mkRequest "b" "o.txt" "" 5 in
  early_failure slash_join rq fs_without_bucket =
    Some (IodineError (PathError "b/o.txt" ENOENT)) /\
  inevitably (step slash_join rq)
    (fun s => st_fs s = fs_without_bucket)
    (upload rq fs_without_bucket [hello]).
Proof.
  intros rq. split; [reflexivity|].
  apply (inevitably_strengthen _ (fun _ => True)
           (fun s =>
              st_fs s = fs_without_bucket /\
              reads_of (st_trace s) = [] /\
              writes_failed_with
                (IodineError (IodineError (PathError "b/o.txt" ENOENT)))
                (st_trace s) /\
              signals (st_trace s) =
                [EvRClose (Some (IodineError (PathError "b/o.txt" ENOENT)));
                 EvRelease (Some (IodineError (PathError "b/o.txt" ENOENT)))] /\
              bw_err (st_b s) =
                Some (IodineError (PathError "b/o.txt" ENOENT)) /\
              exists r, st_caller s = CRet r /\
                (r = None \/
                 r = Some (IodineError (PathError "b/o.txt" ENOENT)))));
    [auto|tauto|exact I|].
  apply (early_failure_outcome slash_join rq fs_without_bucket [hello]).
  reflexivity.
Defined.

(** ** Uploads that get to the copy *)

Section CopyFacts.
Variable filepath_Join : string -> string -> string.
Variable rq : Request.
Variable all : list byte.
Variable fs0 : FS.
Hypothesis Hbucket : bucket rq <> ""%string.
Hypothesis Hobject : object rq <> ""%string.
Hypothesis Hsize : 0 <= size rq.
Hypothesis Hcreate : refused fs0 !! objectPath filepath_Join rq = None.

Lemma copy_inv_init script :
  concat script = all ->
  copy_inv filepath_Join rq all fs0 (upload rq fs0 script).
Proof. intros Hc. repeat split; auto. Qed.

Lemma copy_berr pc r fs u rd berr :
  copy_worker filepath_Join rq all fs0 pc r fs u rd berr ->
  berr = None \/
  (berr = Some (IodineError EOF) /\ Z.of_nat (length all) < size rq).
Proof.
  destruct pc; simpl; try (destruct k); try contradiction;
    try (intuition; fail).
  intros (c & _ & _ & [[? _]|(? & _ & ?)]); auto.
Qed.

Lemma file_Write_created c buf :
  file_Write (objectPath filepath_Join rq) buf (created filepath_Join rq fs0 c) =
  created filepath_Join rq fs0 (c ++ buf).
Proof.
  unfold file_Write, created; simpl. rewrite alter_insert_eq. reflexivity.
Qed.

Lemma copy_inv_step t s s' :
  latch_inv s -> copy_inv filepath_Join rq all fs0 s ->
  step filepath_Join rq t s = Some s' ->
  copy_inv filepath_Join rq all fs0 s'.
Proof.
  destruct s as [fs p [w rel e] wk cl tr].
  unfold latch_inv, copy_inv, step, unread; simpl.
  intros [_ Hl] (Hc & Hw) Hs.
  destruct t.
  - assert (Hs' : step_caller (mkState fs p (mkBWC w rel e) wk cl tr) = Some s')
      by (destruct wk; auto; congruence).
    clear Hs. unfold step_caller in Hs'; simpl in Hs'.
    pose proof (copy_berr _ _ _ _ _ _ Hw) as He.
    destruct cl as [[|q rest]|q rest|err| | |r]; simpl in Hs'.
    + injection Hs' as <-; simpl. destruct Hc as [Hd Hwe]. repeat split; auto.
    + destruct Hc as [Hd Hwe]. unfold pipe_write_begin in Hs'.
      rewrite Hwe in Hs'. injection Hs' as <-; simpl. repeat split; auto.
    + unfold pipe_write_wait in Hs'. destruct (data p) as [d|] eqn:Ed.
      * destruct (rerr p) as [e0|] eqn:Er; [|discriminate].
        injection Hs' as <-; simpl. rewrite reads_of_app; simpl.
        rewrite app_nil_r. repeat split; auto.
        destruct wk; simpl in *; try (destruct k); try contradiction;
          try (exfalso; intuition discriminate; fail); auto.
      * injection Hs' as <-; simpl. rewrite reads_of_app; simpl.
        rewrite app_nil_r. repeat split; auto.
    + injection Hs' as <-; simpl. destruct Hc as (Hd & Hwe & ->).
      repeat split; auto.
    + unfold Close_Wait_ready in Hs'; simpl in Hs'.
      destruct (wg_Wait_ready rel); [|discriminate].
      injection Hs' as <-; simpl. repeat split; tauto.
    + injection Hs' as <-; simpl. repeat split; tauto.
    + discriminate.
  - assert (Hs' : step_worker filepath_Join rq
                    (mkState fs p (mkBWC w rel e) wk cl tr) = Some s')
      by (destruct wk; auto; congruence).
    clear Hs. unfold step_worker in Hs'; simpl in Hs'.
    destruct wk as [ | | |written N|written N buf|err|err k|err k| | | ];
      simpl in Hs', Hw; try contradiction.
    + destruct (String.eqb_spec (bucket rq) ""); [contradiction|].
      destruct (String.eqb_spec (object rq) ""); [contradiction|].
      simpl in Hs'. injection Hs' as <-; simpl. repeat split; tauto.
    + destruct (Z.ltb_spec (size rq) 0); [lia|].
      injection Hs' as <-; simpl. repeat split; tauto.
    + destruct Hw as (Hr & -> & Hrd & Hu & He).
      unfold os_Create in Hs'. rewrite Hcreate in Hs'. simpl in Hs'.
      injection Hs' as <-; simpl. split; auto. split; auto. split; auto.
      exists []. repeat split; auto. simpl. lia.
    + destruct Hw as (Hr & He & c & -> & Hrd & Hall & HN & HN0 & Hwr).
      destruct (Z.leb_spec N 0) as [HNle|HNgt].
      * unfold CopyN_result in Hs'.
        destruct (Z.eqb_spec written (size rq)); [|lia].
        simpl in Hs'. injection Hs' as <-; simpl.
        split; auto. split; auto. split; auto.
        exists c. repeat split; auto; [lia|]. eexists; exact Hall.
      * destruct (pipe_read _ p) as [|bs p'|e'] eqn:Er; [discriminate| |].
        -- apply pipe_read_ok in Er as (d & Ed & _ & -> & ->).
           rewrite Ed in *.
           destruct cl as [?|q rest|?| | |?]; simpl in *;
             try (destruct Hc; discriminate).
           set (cap := Z.to_nat _) in *.
           pose proof (take_drop cap d) as Htd.
           pose proof (length_take d cap) as Hlt.
           assert (Hcap : Z.of_nat cap <= N)
             by (unfold cap, copy_buf_size; lia).
           assert (Hu' : default [] (match drop cap d with
                                     | [] => None
                                     | d' => Some d'
                                     end) = drop cap d)
             by (destruct (drop cap d); auto).
           destruct (take cap d) as [|x bs] eqn:Et.
           ++ injection Hs' as <-; simpl. rewrite Hu'. simpl in Htd.
              rewrite Htd, reads_of_app; simpl. rewrite app_nil_r.
              repeat split; auto. exists c. repeat split; auto.
           ++ assert (Hd : d ++ concat rest =
                           (x :: bs) ++ drop cap d ++ concat rest)
                by (rewrite app_assoc, Htd; reflexivity).
              injection Hs' as <-; simpl. rewrite Hu', reads_of_app, Hrd.
              simpl. rewrite app_nil_r.
              repeat split; auto. exists c. split; auto. split; auto.
              split; [rewrite <- Hall, Hd; reflexivity|].
              simpl in Hlt. repeat split; auto; lia.
        -- apply pipe_read_err in Er as [[Hr' _]|(_ & Hd & Hwe)];
             [congruence|].
           rewrite Hd in *.
           destruct cl as [?|q rest|?| | |?]; simpl in *;
             try (exfalso; intuition congruence; fail);
             rewrite app_nil_r in Hall; subst c;
             (assert (e' = EOF) as -> by intuition congruence);
             unfold CopyN_result in Hs'; simpl in Hs';
             (destruct (Z.eqb_spec written (size rq)); [lia|]);
             (destruct (Z.ltb_spec written (size rq)); [|lia]);
             simpl in Hs'; injection Hs' as <-; simpl;
             rewrite Hall in HN, Hwr; rewrite ?Hall;
             repeat split; auto; try tauto; lia.
    + destruct Hw as (Hr & He & c & -> & Hrd & Hall & HN & HN0 & Hwr).
      injection Hs' as <-; simpl. rewrite file_Write_created.
      split; auto. split; auto. split; auto.
      exists (c ++ buf). rewrite <- app_assoc, length_app.
      repeat split; auto; lia.
    + destruct Hw as (-> & He & -> & Hrd & Hshort).
      injection Hs' as <-; simpl. rewrite reads_of_app; simpl.
      rewrite app_nil_r. repeat split; auto.
    + unfold Release_Done, wg_Done, wg_Add in Hs'; simpl in Hs'.
      destruct Hl as [-> _]. simpl in Hs'. injection Hs' as <-; simpl.
      rewrite reads_of_app; simpl. rewrite app_nil_r.
      destruct k; split; auto.
    + injection Hs' as <-; simpl. split; auto.
      destruct k.
      * destruct Hw as (-> & He & -> & Hrd & Hshort). simpl.
        exists all. repeat split; auto.
      * destruct Hw as (-> & He & c & -> & Hrd & Hfull). simpl.
        split; auto. exists c. repeat split; auto; tauto.
    + destruct Hw as (He & c & -> & Hrd & Hfull).
      injection Hs' as <-; simpl. rewrite reads_of_app; simpl.
      rewrite app_nil_r. split; auto. exists c. repeat split; auto.
    + discriminate.
Qed.

End CopyFacts.

Lemma inevitably_weaken {St} (stp : tid -> St -> option St) (P Q : St -> Prop) s :
  inevitably stp P s -> (forall s', P s' -> Q s') -> inevitably stp Q s.
Proof.
  intros H HPQ. induction H as [s Ht HP | s Hex _ IH].
  - apply inev_stop; auto.
  - apply inev_step; auto.
Qed.

(** Every execution of an upload that gets to the copy ends with the
    first [size] bytes of what the caller wrote in the object file and
    nothing else changed; these are the bytes read from the pipe and the
    bytes the [Write] calls reported as written. *)
Lemma upload_outcome (filepath_Join : string -> string -> string)
    (rq : Request) (fs : FS) (script : list (list byte)) :
  bucket rq <> ""%string -> object rq <> ""%string -> 0 <= size rq ->
  refused fs !! objectPath filepath_Join rq = None ->
  inevitably (step filepath_Join rq)
    (fun s =>
       let c := take (Z.to_nat (size rq)) (concat script) in
       st_fs s = created filepath_Join rq fs c /\
       reads_of (st_trace s) = c /\
       acked_of (st_trace s) = c /\
       exists r, st_caller s = CRet r /\
         (r = None \/
          (r = Some (IodineError EOF) /\
           Z.of_nat (length (concat script)) < size rq)))
    (upload rq fs script).
Proof.
  intros Hb Ho Hsize Href.
  apply (inevitably_strengthen _
           (fun s => latch_inv s /\
                     copy_inv filepath_Join rq (concat script) fs s /\
                     sync_inv s)
           (fun s => st_worker s = WExit /\ exists r, st_caller s = CRet r)).
  - intros t s s' (Hl & Hc & Hy) Hstep. split; [|split].
    + apply (latch_inv_step filepath_Join rq t s s' Hl Hstep).
    + apply (copy_inv_step filepath_Join rq (concat script) fs Hb Ho Hsize Href
               t s s' Hl Hc Hstep).
    + apply (sync_inv_step filepath_Join rq t s s' Hy Hstep).
  - intros s (_ & (Hc & Hw) & (_ & Hy)) [Hwk [r Hcl]].
    rewrite Hcl in Hc, Hy. rewrite Hwk in Hw. simpl in Hw.
    destruct Hc as (_ & _ & Hr). destruct Hy as [_ Hy].
    destruct Hw as (c & Hfs & Hrd & Hcase).
    assert (Hc : c = take (Z.to_nat (size rq)) (concat script)).
    { destruct Hcase as [(_ & Hlen & rest & Hrest)|(_ & -> & Hshort)].
      - rewrite <- Hrest. symmetry. apply take_app_length'. lia.
      - symmetry. apply take_ge. lia. }
    simpl. rewrite <- Hc, <- Hy, Hrd. repeat split; auto. exists r; auto.
  - split; [apply latch_inv_init|].
    split; [apply copy_inv_init; auto|apply sync_inv_init].
  - apply upload_terminates.
Qed.









(** [Close] gets past [Wait] only once the counter is zero, and the
    counter never goes up again. *)
Lemma waited_step filepath_Join rq t s s' :
  latch_inv s ->
  (match st_caller s with
   | C80 | CRet _ => bw_release (st_b s) = 0
   | _ => True
   end) ->
  step filepath_Join rq t s = Some s' ->
  match st_caller s' with
  | C80 | CRet _ => bw_release (st_b s') = 0
  | _ => True
  end.
Proof.
  destruct s as [fs p [w rel e] wk cl tr].
  unfold latch_inv, step; simpl. intros [_ Hl] Hc Hs.
  destruct t.
  - assert (Hs' : step_caller (mkState fs p (mkBWC w rel e) wk cl tr) = Some s')
      by (destruct wk; auto; congruence).
    clear Hs. unfold step_caller, Close_Wait_ready, wg_Wait_ready in Hs'.
    simpl in Hs'.
    destruct cl as [[|q rest]|q rest|err| | |r]; simpl in Hs';
      repeat match type of Hs' with
             | context [match ?x with _ => _ end] => destruct x eqn:?
             end; simplify_eq; simpl; auto; lia.
  - assert (Hs' : step_worker filepath_Join rq
                    (mkState fs p (mkBWC w rel e) wk cl tr) = Some s')
      by (destruct wk; auto; congruence).
    clear Hs. unfold step_worker, after_CopyN in Hs'; simpl in Hs'.
    unfold Release_Done, wg_Done, wg_Add, Release_store in Hs'; simpl in Hs'.
    destruct wk; simpl in *;
      repeat match type of Hs' with
             | context [match ?x with _ => _ end] => destruct x eqn:?
             end; simplify_eq; simpl; auto;
      destruct cl; auto; lia.
Qed.


